(** * Cache merging and head testing: a shallow embedding

    This development embeds two scripts of the repository,
    [src/python/cache_merger.py] and [src/python/test_repo_heads.py],
    and states the properties of the specification over the embedding.

    - Paths are [pathlib] paths seen through [Path.parts]: a list of
      components.  Symbolic links and [..] are not represented.
    - A file system is a finite map from paths to nodes.
    - Python exceptions are the [Raise] results of a small error monad. *)

From Stdlib Require Import Ascii String.
From Stdlib Require PrimFloat FloatOps SpecFloat.
From stdpp Require Import gmap strings list fin_maps sorting.

Set Warnings "-register-all".

Local Open Scope string_scope.
Local Open Scope list_scope.
Local Open Scope stdpp_scope.

(** * Part I: the embedding *)

(** ** Exceptions *)

Inductive exn :=
  | FileNotFoundError
  | FileExistsError
  | NotADirectoryError
  | IsADirectoryError
  | JSONDecodeError
  | AssertionError
  | KeyError (key : string)
  | Exception (msg : string).

Inductive result (A : Type) :=
  | Ok (a : A)
  | Raise (e : exn).
Arguments Ok {A} a.
Arguments Raise {A} e.

#[global] Instance result_ret : MRet result := λ A a, Ok a.
#[global] Instance result_bind : MBind result := λ A B k m,
  match m with
  | Ok a => k a
  | Raise e => Raise e
  end.

(** A [for] loop whose body may raise. *)
Fixpoint for_each {A S} (body : A → S → result S) (l : list A) (s : S) : result S :=
  match l with
  | [] => Ok s
  | x :: l' => s' ← body x s; for_each body l' s'
  end.

(** ** Paths *)

Abbreviation path := (list string).

(** [Path.parent]. *)
Definition parent (p : path) : path := removelast p.

(** [PurePath.name]: the final component, empty when there is none. *)
Definition name (p : path) : string := default EmptyString (last p).

(** [str.rfind] for one character. *)
Fixpoint rfind (c : ascii) (s : string) : option nat :=
  match s with
  | EmptyString => None
  | String a s' =>
      match rfind c s' with
      | Some i => Some (S i)
      | None => if Ascii.eqb a c then Some 0 else None
      end
  end.

(** [PurePath.suffix]: [name[i:]] for the last dot [i] of the name when
    [0 < i < len(name) - 1], the empty string otherwise. *)
Definition suffix (p : path) : string :=
  let n := name p in
  match rfind "." n with
  | Some i =>
      if ((0 <? i) && (i <? String.length n - 1))%nat
      then String.substring i (String.length n - i)%nat n
      else EmptyString
  | None => EmptyString
  end.

(** [path.parts[1:]] turned back into a path. *)
Definition relative_path (p : path) : path := tail p.

(** ** JSON documents *)

Inductive json :=
  | JNull
  | JBool (b : bool)
  | JInt (n : Z)
  | JStr (s : string)
  | JArr (l : list json)
  | JObj (items : list (string * json)).

(** The content of a regular file.  [Mapping items] is a JSON text whose
    top level is an object, with its members in the order of the text.
    [Bytes b] is any content on which [json.load] fails.  JSON texts
    whose top level is not an object, and numbers that are not integers,
    are not represented. *)
Inductive content :=
  | Bytes (b : string)
  | Mapping (items : list (string * json)).

Inductive node :=
  | File (c : content)
  | Dir.

#[global] Instance json_inhabited : Inhabited json := populate JNull.

(** The Python [dict] a JSON object is loaded into: on a repeated key
    the last value is kept, at the position of the first occurrence. *)
Fixpoint dict_set (d : list (string * json)) (k : string) (v : json) : list (string * json) :=
  match d with
  | [] => [(k, v)]
  | (k', v') :: d' => if String.eqb k' k then (k', v) :: d' else (k', v') :: dict_set d' k v
  end.

Definition dict_of_items (items : list (string * json)) : list (string * json) :=
  foldl (λ d kv, dict_set d kv.1 kv.2) [] items.

(** [json.load] on the values below the top level. *)
Fixpoint load_value (j : json) : json :=
  match j with
  | JArr l => JArr (map load_value l)
  | JObj items => JObj (dict_of_items (map (λ kv, (fst kv, load_value (snd kv))) items))
  | _ => j
  end.

(** Insertion into a list of members sorted by key. *)
Fixpoint insert_by_key (kv : string * json) (l : list (string * json)) : list (string * json) :=
  match l with
  | [] => [kv]
  | kv' :: l' => if String.leb kv.1 kv'.1 then kv :: l else kv' :: insert_by_key kv l'
  end.

Definition sort_by_key (l : list (string * json)) : list (string * json) :=
  foldr insert_by_key [] l.

(** [sort_keys=True] below the top level. *)
Fixpoint sort_keys (j : json) : json :=
  match j with
  | JArr l => JArr (map sort_keys l)
  | JObj items => JObj (sort_by_key (map (λ kv, (fst kv, sort_keys (snd kv))) items))
  | _ => j
  end.

(** ** File systems *)

Abbreviation FS := (gmap path node).

(** The node at a path; the current directory, [Path('.')], whose parts
    are empty, is always a directory. *)
Definition node_at (σ : FS) (p : path) : option node :=
  match p with
  | [] => Some Dir
  | _ => σ !! p
  end.

(** [Path.exists], [Path.is_file], [Path.is_dir]. *)
Definition exists_ (σ : FS) (p : path) : bool :=
  match node_at σ p with Some _ => true | None => false end.
Definition is_file (σ : FS) (p : path) : bool :=
  match node_at σ p with Some (File _) => true | _ => false end.
Definition is_dir (σ : FS) (p : path) : bool :=
  match node_at σ p with Some Dir => true | _ => false end.

(** [os.mkdir]. *)
Definition os_mkdir (σ : FS) (p : path) : result FS :=
  match node_at σ p with
  | Some _ => Raise FileExistsError
  | None =>
      match node_at σ (parent p) with
      | Some Dir => Ok (<[p := Dir]> σ)
      | Some (File _) => Raise NotADirectoryError
      | None => Raise FileNotFoundError
      end
  end.

(** [Path.mkdir(parents=False, exist_ok=True)]: a missing parent is an
    error; any other error of [os.mkdir] is swallowed when the path is
    a directory. *)
Definition mkdir_exist_ok (σ : FS) (p : path) : result FS :=
  match os_mkdir σ p with
  | Ok σ' => Ok σ'
  | Raise FileNotFoundError => Raise FileNotFoundError
  | Raise e => if is_dir σ p then Ok σ else Raise e
  end.

(** [Path.mkdir(parents=True, exist_ok=True)], by recursion on the
    reversed path: [os.mkdir] is tried first; when the parent is missing
    the parent is made in the same way and the path is made with
    [parents=False]; any other error is swallowed when the path is a
    directory. *)
Fixpoint mkdir_rev (σ : FS) (rp : list string) : result FS :=
  match os_mkdir σ (rev rp) with
  | Ok σ' => Ok σ'
  | Raise FileNotFoundError =>
      match rp with
      | [] => Raise FileNotFoundError
      | _ :: rp' => σ' ← mkdir_rev σ rp'; mkdir_exist_ok σ' (rev rp)
      end
  | Raise e => if is_dir σ (rev rp) then Ok σ else Raise e
  end.

Definition mkdir_parents (σ : FS) (p : path) : result FS := mkdir_rev σ (rev p).

(** [open(p, "w")] followed by writing [c]. *)
Definition write_file (σ : FS) (p : path) (c : content) : result FS :=
  match node_at σ p with
  | Some Dir => Raise IsADirectoryError
  | Some (File _) => Ok (<[p := File c]> σ)
  | None =>
      match node_at σ (parent p) with
      | Some Dir => Ok (<[p := File c]> σ)
      | Some (File _) => Raise NotADirectoryError
      | None => Raise FileNotFoundError
      end
  end.

(** [open(p, "r")] followed by reading everything. *)
Definition read_file (σ : FS) (p : path) : result content :=
  match node_at σ p with
  | Some (File c) => Ok c
  | Some Dir => Raise IsADirectoryError
  | None => Raise FileNotFoundError
  end.

(** [Path.stat], kept for the exception it raises on a missing path. *)
Definition stat (σ : FS) (p : path) : result unit :=
  if exists_ σ p then Ok () else Raise FileNotFoundError.

(** ** [cache_merger.py] *)

(** [json.load] of a whole file into a [dict]. *)
Definition json_load (c : content) : result (list (string * json)) :=
  match c with
  | Mapping items => Ok (dict_of_items (map (λ kv, (fst kv, load_value (snd kv))) items))
  | Bytes _ => Raise JSONDecodeError
  end.

(** [dict.update] with a [dict] argument. *)
Definition dict_update (data d : list (string * json)) : list (string * json) :=
  foldl (λ acc kv, dict_set acc kv.1 kv.2) data d.

(** [json.dump(data, f, indent=4, sort_keys=True)]: the text written is
    determined by the members in sorted order, which is what is kept. *)
Definition json_dump (data : list (string * json)) : content :=
  Mapping (sort_by_key (map (λ kv, (fst kv, sort_keys (snd kv))) data)).

(** The loop of [merge_json_data] that fills [data]. *)
Definition load_all (σ : FS) (paths : list path) : result (list (string * json)) :=
  for_each (λ path data,
    if exists_ σ path then
      c ← read_file σ path;
      d ← json_load c;
      Ok (dict_update data d)
    else Ok data) paths [].

Definition merge_json_data (σ : FS) (paths : list path) (output_path : path) : result FS :=
  data ← load_all σ paths;
  σ1 ← (if negb (exists_ σ (parent output_path))
        then mkdir_parents σ (parent output_path)
        else Ok σ);
  write_file σ1 output_path (json_dump data).

(** [shutil.copy]: into the directory when the destination is one. *)
Definition shutil_copy (σ : FS) (source destination : path) : result FS :=
  let dst := if is_dir σ destination then destination ++ [name source] else destination in
  c ← read_file σ source;
  write_file σ dst c.

Definition copy_file (σ : FS) (source destination : path) : result FS :=
  if negb (exists_ σ destination) then
    σ1 ← mkdir_parents σ (parent destination);
    shutil_copy σ1 source destination
  else Ok σ.

Section CacheMerger.

(** [Path.rglob("*")]: the order in which a directory is listed is
    left to the operating system, so the traversal is a parameter; the
    listing is taken when the traversal starts. *)
Variable rglob : FS → path → list path.

(** The list comprehension of [process_directory]:
    [[cache / relative_path for cache in other_caches
      if (cache / relative_path).exists()]]. *)
Definition corresponding_paths (σ : FS) (other_caches : list path)
    (relative_path : path) : list path :=
  filter (λ q, exists_ σ q) (map (λ cache, cache ++ relative_path) other_caches).

(** The body of the loop of [process_directory]. *)
Definition process_entry (other_caches : list path) (output_cache : path)
    (path : path) (σ : FS) : result FS :=
  σ' ← (if is_file σ path then
          let relative_path := relative_path path in
          let corresponding_paths := corresponding_paths σ other_caches relative_path in
          if String.eqb (suffix path) ".json" then
            merge_json_data σ (path :: corresponding_paths) (output_cache ++ relative_path)
          else if negb (String.eqb (suffix path) ".lock") then
            copy_file σ path (output_cache ++ relative_path)
          else Ok σ
        else Ok σ);
  _ ← stat σ' path;
  Ok σ'.

Definition process_directory (directory : path) (other_caches : list path)
    (output_cache : path) (σ : FS) : result FS :=
  _ ← stat σ directory;
  for_each (process_entry other_caches output_cache) (rglob σ directory) σ.

Definition merge_caches (caches : list path) (output_cache : path) (σ : FS) : result FS :=
  σ0 ← (if negb (exists_ σ output_cache)
        then mkdir_parents σ output_cache
        else Ok σ);
  for_each (λ cache σ,
    process_directory cache (filter (λ c, c ≠ cache) caches) output_cache σ) caches σ0.

End CacheMerger.

(** The directories passed on the way from [d] down to [p], [d]
    among them. *)
Definition dirs_between (d p : path) : list path :=
  (λ n, take n p) <$> seq (length d) (length p - length d).

(** [p] lies below the directory [d]: it is there, and everything from
    [d] down to it is a directory. *)
Definition below (σ : FS) (d p : path) : Prop :=
  d `prefix_of` p ∧ d ≠ p ∧ exists_ σ p ∧ Forall (λ q, is_dir σ q) (dirs_between d p).

#[global] Instance below_dec σ d p : Decision (below σ d p).
Proof. unfold below. apply _. Defined.

(** A traversal function: what lies below [d], in the order of the
    map. *)
Definition rglob_listing (σ : FS) (d : path) : list path :=
  filter (below σ d) (map fst (map_to_list σ)).

(** ** What the operations of [cache_merger.py] do to the tree *)

(** What [mkdir_parents] may change: directories appear at missing
    prefixes of the path, and nothing else moves. *)
Definition made_dirs (σ σ' : FS) (p : path) : Prop :=
  is_dir σ' p ∧
  ∀ q, σ' !! q = σ !! q ∨ (σ !! q = None ∧ σ' !! q = Some Dir ∧ q `prefix_of` p).

(** The effect of a successful write to [t], the parents having been
    made on the way: [t] holds [c], directories appear at missing
    prefixes of [t], and nothing else moves. *)
Definition written (σ σ' : FS) (t : path) (c : content) : Prop :=
  t ≠ [] ∧ σ !! t ≠ Some Dir ∧ σ' !! t = Some (File c) ∧ exists_ σ' (parent t) ∧
  ∀ q, q ≠ t →
    σ' !! q = σ !! q ∨ (σ !! q = None ∧ σ' !! q = Some Dir ∧ q `prefix_of` t).

(** What a successful visit of [p] did, with [t] the place in the output
    that [p] maps to. *)
Inductive visit (others : list path) (out p : path) (σ σ' : FS) : Prop :=
  | visit_skip :
      σ' = σ →
      (is_file σ p = false ∨ suffix p = ".lock" ∨
       (suffix p ≠ ".json" ∧ exists_ σ (out ++ tail p))) →
      visit others out p σ σ'
  | visit_json data :
      is_file σ p → suffix p = ".json" →
      load_all σ (p :: corresponding_paths σ others (tail p)) = Ok data →
      written σ σ' (out ++ tail p) (json_dump data) →
      visit others out p σ σ'
  | visit_copy c :
      suffix p ≠ ".json" → suffix p ≠ ".lock" →
      ¬ exists_ σ (out ++ tail p) →
      node_at σ p = Some (File c) →
      written σ σ' (out ++ tail p) c →
      visit others out p σ σ'.

(** ** Sources and output *)

(** A traversal function lists exactly what lies below the directory. *)
Definition lists_below (rglob : FS → path → list path) : Prop :=
  ∀ σ d p, p ∈ rglob σ d ↔ below σ d p.

(** No source lies inside the output directory, nor the output
    directory inside a source. *)
Definition apart (caches : list path) (out : path) : Prop :=
  Forall (λ c, ¬ c `prefix_of` out ∧ ¬ out `prefix_of` c) caches.

#[global] Instance apart_dec caches out : Decision (apart caches out).
Proof. unfold apart. apply _. Defined.

(** [τ] holds what [σ] holds inside the sources. *)
Definition agree (caches : list path) (σ τ : FS) : Prop :=
  ∀ c q, c ∈ caches → c `prefix_of` q → τ !! q = σ !! q.

(** Source [c] holds a file at the relative path [rel], where the
    traversal finds it. *)
Definition holds (σ : FS) (c rel : path) : Prop :=
  below σ c (c ++ rel) ∧ is_file σ (c ++ rel).

(** Source [c] holds a structured entry whose relative path is [rel]. *)
Definition holds_json (σ : FS) (rel : path) (c : path) : Prop :=
  match c with
  | [] => False
  | h :: _ => below σ c (h :: rel) ∧ is_file σ (h :: rel) ∧ suffix (h :: rel) = ".json"
  end.

#[global] Instance holds_json_dec σ rel c : Decision (holds_json σ rel c).
Proof. destruct c; apply _. Defined.

(** The places of the output that structured entries are written to. *)
Definition json_target (caches : list path) (out : path) (σ : FS) (q : path) : Prop :=
  ∃ c p, c ∈ caches ∧ below σ c p ∧ is_file σ p ∧ suffix p = ".json" ∧
         q = out ++ tail p.

(** During a second merge the tree is the merged one, except that a
    structured entry may hold what another source order gives. *)
Definition remerging (caches : list path) (out : path) (σ σ' τ : FS) : Prop :=
  agree caches σ τ ∧
  ∀ q, τ !! q = σ' !! q ∨ (is_file τ q ∧ is_file σ' q ∧ json_target caches out σ q).

(** ** The order of what [json.dump] writes *)

(** The order of the members written by [json.dump]. *)
Definition key_le (a b : string * json) : Prop := String.leb a.1 b.1 = true.

(** Every object of a document has its members in the order of their
    keys. *)
Fixpoint keys_sorted (j : json) : Prop :=
  match j with
  | JArr l => foldr (λ x acc, keys_sorted x ∧ acc) True l
  | JObj items =>
      Sorted key_le items ∧ foldr (λ kv acc, keys_sorted (snd kv) ∧ acc) True items
  | _ => True
  end.

(** ** [test_repo_heads.py] *)

(** Modelled from the spec: the members of [TEST_STATE], which [repo.py]
    declares and which is not among the sources.  They are the outcomes
    of the specification that [checkout_and_test] may report; the two
    outcomes of validation are recorded by the script itself, as the
    strings ["Wrong format"] and ["No valid head hash"]. *)
Inductive TEST_STATE :=
  | Tests_passed
  | Tests_failed
  | Tests_timedout
  | Tests_exception
  | Git_checkout_failed.

#[global] Instance TEST_STATE_eq_dec : EqDecision TEST_STATE.
Proof. solve_decision. Defined.

(** [Enum.name]. *)
Definition state_name (s : TEST_STATE) : string :=
  match s with
  | Tests_passed => "Tests_passed"
  | Tests_failed => "Tests_failed"
  | Tests_timedout => "Tests_timedout"
  | Tests_exception => "Tests_exception"
  | Git_checkout_failed => "Git_checkout_failed"
  end.

(** A row of the input table, with the two columns the function adds;
    a column that has not been assigned is [None], and the fingerprint,
    once assigned, may be Python's [None]. *)
Record Series := {
  repository : string;
  head_hash : string;
  head_test_result : option string;
  head_tree_fingerprint : option (option string)
}.

(** [repo_info["head test result"] = v] and
    [repo_info["head tree fingerprint"] = v]. *)
Definition set_head_test_result (r : Series) (v : string) : Series :=
  {| repository := repository r; head_hash := head_hash r;
     head_test_result := Some v;
     head_tree_fingerprint := head_tree_fingerprint r |}.

Definition set_head_tree_fingerprint (r : Series) (v : option string) : Series :=
  {| repository := repository r; head_hash := head_hash r;
     head_test_result := head_test_result r;
     head_tree_fingerprint := Some v |}.

(** The calls made on the [Repository] class. *)
Inductive call :=
  | Call_Repository (repo_slug : string) (cache_directory : path)
      (workdir_id : string) (lazy_clone : bool)
  | Call_checkout_and_test (commit : string) (timeout : Z) (n_tests : Z)
  | Call_clone_repo.

(** What the script acts on: the file system, the entries of it that
    refuse deletion, the calls made so far on [Repository], and the
    tables written with [to_csv]. *)
Record World := {
  fs : FS;
  undeletable : gset path;
  calls : list call;
  tables : gmap path (list Series)
}.

(** Updates of the world, field by field. *)
Definition set_fs (w : World) (σ : FS) : World :=
  {| fs := σ; undeletable := undeletable w; calls := calls w; tables := tables w |}.
Definition log_call (c : call) (w : World) : World :=
  {| fs := fs w; undeletable := undeletable w; calls := calls w ++ [c]; tables := tables w |}.
Definition set_table (w : World) (p : path) (rows : list Series) : World :=
  {| fs := fs w; undeletable := undeletable w; calls := calls w;
     tables := <[p := rows]> (tables w) |}.

(** Computations that act on the world and may raise. *)
Definition io (A : Type) : Type := World → World * result A.

#[global] Instance io_ret : MRet io := λ A a w, (w, Ok a).
#[global] Instance io_bind : MBind io := λ A B k m w,
  match m w with
  | (w', Ok a) => k a w'
  | (w', Raise e) => (w', Raise e)
  end.

(** [raise]. *)
Definition raise {A} (e : exn) : io A := λ w, (w, Raise e).

(** The [try] part of [try: ... except Exception as e: ...]: the
    exception, if any, is handed over as a value. *)
Definition catch {A} (m : io A) : io (result A) := λ w,
  match m w with
  | (w', r) => (w', Ok r)
  end.

(** A call on [Repository], recorded before it is made. *)
Definition logged {A} (c : call) (m : io A) : io A := λ w, m (log_call c w).

(** The class [Repository] of [repo.py], of which the script uses the
    constructor, two methods and one attribute; its code is not at
    hand, so its behaviour is a parameter. *)
Record Runner := {
  Repo : Type;
  Repository : string → path → string → bool → io Repo;
  checkout_and_test : Repo → string → Z → Z → io (TEST_STATE * string * option string);
  clone_repo : Repo → io unit;
  repo_path : Repo → path
}.

(** [c in s] for a single character. *)
Fixpoint has_char (c : ascii) (s : string) : bool :=
  match s with
  | EmptyString => false
  | String a s' => Ascii.eqb a c || has_char c s'
  end.

(** An entry is kept by a best-effort deletion when it refuses deletion
    or lies above an entry that does. *)
Definition kept (w : World) (q : path) : Prop :=
  set_Exists (λ r, q `prefix_of` r ∧ is_Some (fs w !! r)) (undeletable w).

(** [shutil.rmtree(p, ignore_errors=True)]: nothing happens unless [p]
    is a directory; what can be deleted below it is deleted. *)
Definition rmtree_ignore_errors (p : path) : io unit := λ w,
  if is_dir (fs w) p
  then (set_fs w (filter (λ kv, ¬ p `prefix_of` kv.1 ∨ kept w kv.1) (fs w)), Ok ())
  else (w, Ok ()).

(** [Path.exists] in the world. *)
Definition path_exists (p : path) : io bool := λ w, (w, Ok (exists_ (fs w) p)).

(** [assert]. *)
Definition assert_ (b : bool) : io unit :=
  if b then mret () else raise AssertionError.

(** [DataFrame.to_csv]. *)
Definition to_csv (rows : list Series) (p : path) : io unit := λ w,
  (set_table w p rows, Ok ()).

Section TestRepoHeads.

Variable R : Runner.
(** [TIMEOUT_TESTING_PARENT] of [variables.py]. *)
Variable TIMEOUT_TESTING_PARENT : Z.

(** The messages that the function prints are left out. *)
Definition head_passes_tests (args : Series * path) : io Series :=
  let '(repo_info, cache) := args in
  let repo_slug := repository repo_info in
  if negb (has_char "/" repo_slug) then
    mret (set_head_test_result repo_info "Wrong format")
  else if negb (String.length (head_hash repo_info) =? 40)%nat then
    mret (set_head_test_result repo_info "No valid head hash")
  else
    let workdir_id := repo_slug +:+ "/head-" +:+ repository repo_info in
    r ← catch (logged (Call_Repository repo_slug cache workdir_id true)
                 (Repository R repo_slug cache workdir_id true));
    match r with
    | Raise e =>
        let repo_info := set_head_test_result repo_info (state_name Git_checkout_failed) in
        let repo_info := set_head_tree_fingerprint repo_info None in
        mret repo_info
    | Ok repo =>
        '(test_state, _, fingerprint) ←
          logged (Call_checkout_and_test (head_hash repo_info) TIMEOUT_TESTING_PARENT 3)
            (checkout_and_test R repo (head_hash repo_info) TIMEOUT_TESTING_PARENT 3);
        let repo_info := set_head_tree_fingerprint repo_info fingerprint in
        (if decide (test_state = Tests_passed) then
           logged Call_clone_repo (clone_repo R repo);;
           b ← path_exists (repo_path R repo);
           assert_ b
         else rmtree_ignore_errors (repo_path R repo));;
        mret (set_head_test_result repo_info (state_name test_state))
    end.

End TestRepoHeads.

(** [df["head test result"]] on the table [pd.DataFrame(rows)]: the
    table has the columns that some row has, so the lookup is a
    [KeyError] when no row carries the column, as for a table without
    rows; a row that does not carry the column has no value in it. *)
Definition head_test_result_column (df : list Series) : io (list (option string)) :=
  if existsb (λ row, bool_decide (is_Some (head_test_result row))) df
  then mret (map head_test_result df)
  else raise (KeyError "head test result").

(** [df[mask]]: the rows at which the mask holds. *)
Fixpoint select_rows (df : list Series) (mask : list bool) : list Series :=
  match df, mask with
  | row :: df', b :: mask' => if b then row :: select_rows df' mask' else select_rows df' mask'
  | _, _ => []
  end.

(** The end of the script, from [df = pd.DataFrame(...)] on: the table
    of the rows that passed and the table of all rows are written,
    unless no row passed. *)
Definition build_output (head_passes_tests_results : list Series)
    (output_path : path) : io unit :=
  let df := head_passes_tests_results in
  column ← head_test_result_column df;
  let filtered_df :=
    select_rows df
      (map (λ cell, bool_decide (cell = Some (state_name Tests_passed))) column) in
  if (length filtered_df =? 0)%nat then
    raise (Exception "No repos found whose head passes tests")
  else
    to_csv filtered_df output_path;;
    to_csv df (parent output_path ++ ["all_repos_head_test_results.csv"]).

(** The exit status of the interpreter. *)
Definition exit_status {A} (r : result A) : Z :=
  match r with
  | Ok _ => 0
  | Raise _ => 1
  end.

(** ** Inputs for the examples *)

(** The documents [A] and [B] of the specification, and two sources
    that hold them. *)
Definition docA : content := Mapping [("k1", JStr "v1")].
Definition docB : content := Mapping [("k1", JStr "v2"); ("k2", JStr "v3")].

Definition two_sources : FS :=
  list_to_map [
    (["A"], Dir); (["A"; "x.json"], File docA);
    (["A"; "d"], Dir); (["A"; "d"; "blob.bin"], File (Bytes "bytes of A"));
    (["A"; "d"; "blob.lock"], File (Bytes "locked"));
    (["B"], Dir); (["B"; "x.json"], File docB);
    (["B"; "d"], Dir); (["B"; "d"; "blob.bin"], File (Bytes "bytes of B")) ].

(** Two sources whose roots have two path components. *)
Definition nested_roots : FS :=
  list_to_map [
    (["data"], Dir);
    (["data"; "A"], Dir); (["data"; "A"; "x.txt"], File (Bytes "entry of A"));
    (["data"; "B"], Dir); (["data"; "B"; "x.txt"], File (Bytes "entry of B")) ].

(** Whether a computation returned. *)
Definition succeeded {A} (r : result A) : bool :=
  match r with
  | Ok _ => true
  | Raise _ => false
  end.

(** The tree after a merge into [out], with the traversal
    [rglob_listing]. *)
Definition merged (caches : list path) (σ : FS) : FS :=
  match merge_caches rglob_listing caches ["out"] σ with
  | Ok σ' => σ'
  | Raise _ => ∅
  end.

(** A stand-in for [Repository]: the working directory is
    [cache/workdir]; testing writes one file there and reports [state];
    cloning does nothing. *)
Definition stub (state : TEST_STATE) : Runner := {|
  Repo := path;
  Repository slug cache workdir_id lazy_clone := mret (cache ++ ["workdir"]);
  checkout_and_test repo commit timeout n_tests := λ w,
    (set_fs w (<[repo ++ ["f"] := File (Bytes "x")]> (<[repo := Dir]> (fs w))),
     Ok (state, "log", Some "fingerprint"));
  clone_repo repo := mret ();
  repo_path repo := repo
|}.

(** A stand-in whose [checkout_and_test] raises. *)
Definition stub_raising : Runner := {|
  Repo := path;
  Repository slug cache workdir_id lazy_clone := mret (cache ++ ["workdir"]);
  checkout_and_test repo commit timeout n_tests := raise (Exception "boom");
  clone_repo repo := mret ();
  repo_path repo := repo
|}.

(** A world with an empty cache directory, where the entries [locked]
    refuse deletion. *)
Definition world (locked : gset path) : World :=
  {| fs := {[ ["cache"] := Dir ]}; undeletable := locked; calls := []; tables := ∅ |}.

(** A row of the input table. *)
Definition task (slug hash : string) : Series :=
  {| repository := slug; head_hash := hash;
     head_test_result := None; head_tree_fingerprint := None |}.

Definition hash40 : string := "0123456789abcdef0123456789abcdef01234567".
Definition nonhex40 : string := "zzzzzzzzzzzzzzzzzzzzzzzzzzzzzzzzzzzzzzzz".
Definition hash39 : string := "0123456789abcdef0123456789abcdef0123456".

(** What one run of [head_passes_tests] gives on task [a/b]. *)
Definition head_run (R : Runner) (locked : gset path) : World * result Series :=
  head_passes_tests R 10 (task "a/b" hash40, ["cache"]) (world locked).

(** The row that a run returned. *)
Definition row_of (r : result Series) : Series :=
  match r with
  | Ok row => row
  | Raise _ => task EmptyString EmptyString
  end.

(** ** Further notions for the properties of Part III *)

(** [d[k]] for a [dict] or the members of an object, the first member
    with the key. *)
Fixpoint dict_get (d : list (string * json)) (k : string) : option json :=
  match d with
  | [] => None
  | (k', v) :: d' => if String.eqb k' k then Some v else dict_get d' k
  end.

(** The value that [json.load] keeps for a key of an object of the
    text: that of the last member with the key. *)
Definition text_get (items : list (string * json)) (k : string) : option json :=
  dict_get (reverse items) k.

(** Nothing is at the path, or a document that has no member [k]. *)
Definition lacks (σ : FS) (k : string) (p : path) : Prop :=
  exists_ σ p = false ∨
  ∃ items, node_at σ p = Some (File (Mapping items)) ∧ text_get items k = None.

(** The loop of [merge_json_data] that fills [data], from any [data]. *)
Definition load_from (σ : FS) (paths : list path) (data : list (string * json)) :
    result (list (string * json)) :=
  for_each (λ path data,
    if exists_ σ path then
      c ← read_file σ path;
      d ← json_load c;
      Ok (dict_update data d)
    else Ok data) paths data.

(** Nothing is at the path, or a document that [json.load] accepts. *)
Definition loadable (σ : FS) (p : path) : Prop :=
  exists_ σ p = false ∨ ∃ items, node_at σ p = Some (File (Mapping items)).

(** ** The arithmetic of [num_processes] *)

(** [float(n)] for an integer [n]: the nearest binary64 number, ties to
    even.  Beyond the range of binary64 Python raises [OverflowError];
    here the value is infinite, and [int_of_float] fails on it. *)
Definition float_of_int (n : Z) : PrimFloat.float :=
  FloatOps.SF2Prim (SpecFloat.binary_normalize FloatOps.prec FloatOps.emax n 0 false).

(** [int(x)]: truncation toward zero.  [None] stands for the
    [ValueError] and the [OverflowError] of a NaN and of an infinity. *)
Definition int_of_float (x : PrimFloat.float) : option Z :=
  match FloatOps.Prim2SF x with
  | SpecFloat.S754_zero _ => Some 0%Z
  | SpecFloat.S754_finite s m e =>
      let v := if (0 <=? e)%Z then (Z.pos m * 2 ^ e)%Z else (Z.pos m `div` 2 ^ (- e))%Z in
      Some (if s then (- v)%Z else v)
  | _ => None
  end.

(** The default of [percentage], the literal [0.7]: the binary64 number
    [0x1.6666666666666p-1]. *)
Definition default_percentage : PrimFloat.float :=
  FloatOps.SF2Prim (SpecFloat.S754_finite false 6305039478318694 (-53)).

(** [os_cpu_count] is what [os.cpu_count()] returns, [None] when the
    count cannot be determined. *)
Definition num_processes (os_cpu_count : option Z) (percentage : PrimFloat.float) :
    option Z :=
  let cpu_count :=
    match os_cpu_count with
    | Some n => if (n =? 0)%Z then 1%Z else n
    | None => 1%Z
    end in
  let processes_used :=
    if (3 <? cpu_count)%Z
    then int_of_float (PrimFloat.mul percentage (float_of_int cpu_count))
    else Some cpu_count in
  processes_used.

(** ** Further inputs for the examples *)

(** Two sources, of which the second holds a [.json] file that is not
    JSON. *)
Definition damaged_sources : FS :=
  list_to_map [
    (["A"], Dir); (["A"; "x.json"], File docA);
    (["B"], Dir); (["B"; "x.json"], File (Bytes "{")) ].

(** A stand-in for [Repository] whose testing makes the working
    directory and puts nothing in it. *)
Definition stub_bare (state : TEST_STATE) : Runner := {|
  Repo := path;
  Repository slug cache workdir_id lazy_clone := mret (cache ++ ["workdir"]);
  checkout_and_test repo commit timeout n_tests := λ w,
    (set_fs w (<[repo := Dir]> (fs w)), Ok (state, "log", Some "fingerprint"));
  clone_repo repo := mret ();
  repo_path repo := repo
|}.

(** A stand-in whose testing leaves a regular file where the working
    directory is expected. *)
Definition stub_file (state : TEST_STATE) : Runner := {|
  Repo := path;
  Repository slug cache workdir_id lazy_clone := mret (cache ++ ["workdir"]);
  checkout_and_test repo commit timeout n_tests := λ w,
    (set_fs w (<[repo := File (Bytes "x")]> (fs w)), Ok (state, "log", Some "fingerprint"));
  clone_repo repo := mret ();
  repo_path repo := repo
|}.

(** A stand-in whose constructor makes the working directory and then
    raises. *)
Definition stub_failing_constructor : Runner := {|
  Repo := path;
  Repository slug cache workdir_id lazy_clone := λ w,
    (set_fs w (<[cache ++ ["workdir"] := Dir]> (fs w)), Raise (Exception "clone failed"));
  checkout_and_test repo commit timeout n_tests := mret (Tests_failed, "log", None);
  clone_repo repo := mret ();
  repo_path repo := repo
|}.

(** The two sources, with an output directory that holds an opaque file
    of an earlier run. *)
Definition two_sources_old_output : FS :=
  <[["out"; "d"; "blob.bin"] := File (Bytes "old bytes")]>
    (<[["out"; "d"] := Dir]> (<[["out"] := Dir]> two_sources)).

(** A source whose document has its members, and those of an object
    below them, out of the order of their keys. *)
Definition unsorted_source : FS :=
  list_to_map [
    (["U"], Dir);
    (["U"; "x.json"],
     File (Mapping [("k2", JStr "v3");
                    ("k1", JObj [("b", JInt 2); ("a", JInt 1)])])) ].

(** The tree that a computation returned. *)
Definition tree_of (r : result FS) : FS :=
  match r with
  | Ok σ' => σ'
  | Raise _ => ∅
  end.

(** * Part II: properties *)

(** ** Effects of the file-system operations *)

Lemma node_at_lookup (σ : FS) (p : path) : p ≠ [] → node_at σ p = σ !! p.
Proof. by destruct p. Qed.

Lemma parent_prefix (p : path) : parent p `prefix_of` p.
Proof.
  unfold parent. destruct (decide (p = [])) as [->|Hp]; [done|].
  exists [List.last p EmptyString]. by apply app_removelast_last.
Qed.

Lemma parent_length (p : path) : p ≠ [] → S (length (parent p)) = length p.
Proof.
  intros Hp. rewrite (app_removelast_last EmptyString Hp) at 2.
  rewrite length_app. simpl. unfold parent. lia.
Qed.

Lemma parent_neq (p : path) : p ≠ [] → parent p ≠ p.
Proof. intros Hp E. apply parent_length in Hp. rewrite E in Hp. lia. Qed.

Lemma not_prefix_parent (p : path) : p ≠ [] → ¬ p `prefix_of` parent p.
Proof.
  intros Hp Hpre. apply prefix_length in Hpre.
  apply parent_length in Hp. lia.
Qed.

Lemma os_mkdir_Ok (σ σ' : FS) (p : path) :
  os_mkdir σ p = Ok σ' →
  p ≠ [] ∧ σ !! p = None ∧ node_at σ (parent p) = Some Dir ∧ σ' = <[p := Dir]> σ.
Proof.
  unfold os_mkdir. destruct p as [|x p]; [done|].
  rewrite node_at_lookup by done.
  destruct (σ !! (x :: p)) eqn:E; [done|].
  destruct (node_at σ (parent (x :: p))) as [[]|]; [done| |done].
  by intros [= <-].
Qed.

Lemma mkdir_exist_ok_Ok (σ σ' : FS) (p : path) :
  mkdir_exist_ok σ p = Ok σ' →
  os_mkdir σ p = Ok σ' ∨ (σ' = σ ∧ is_dir σ p).
Proof.
  unfold mkdir_exist_ok. destruct (os_mkdir σ p) as [σ1|e]; [by left|].
  intros H. right. destruct e; try done;
    (destruct (is_dir σ p); [by injection H as <-|done]).
Qed.

Lemma mkdir_rev_Ok (rp : list string) : ∀ σ σ',
  mkdir_rev σ rp = Ok σ' → made_dirs σ σ' (rev rp).
Proof.
  induction rp as [|x rp IH]; intros σ σ'; cbn [mkdir_rev].
  - simpl. intros H. injection H as <-. split; [done|by left].
  - destruct (os_mkdir σ (rev (x :: rp))) as [σ1|e] eqn:E.
    + intros [= <-]. apply os_mkdir_Ok in E as (Hne & Hnone & _ & ->).
      split.
      * unfold is_dir. rewrite node_at_lookup by done. by rewrite lookup_insert_eq.
      * intros q. destruct (decide (q = rev (x :: rp))) as [->|Hq].
        -- right. by rewrite lookup_insert_eq.
        -- left. by rewrite lookup_insert_ne.
    + assert (Hother : (if is_dir σ (rev (x :: rp)) then Ok σ else Raise e) = Ok σ' →
                       made_dirs σ σ' (rev (x :: rp))).
      { destruct (is_dir σ (rev (x :: rp))) eqn:Hd; [|done].
        intros [= <-]. split; [by rewrite Hd|by left]. }
      destruct e; try exact Hother. clear Hother.
      destruct (mkdir_rev σ rp) as [σ1|] eqn:E1; [|done]. simpl.
      intros E2. apply IH in E1 as [_ Hq1].
      assert (Hup : ∀ q, σ1 !! q = σ !! q ∨
                      (σ !! q = None ∧ σ1 !! q = Some Dir ∧ q `prefix_of` rev (x :: rp))).
      { intros q. destruct (Hq1 q) as [?|(? & ? & Hpre)]; [by left|right].
        split_and!; [done..|]. simpl. by apply prefix_app_r. }
      apply mkdir_exist_ok_Ok in E2 as [E2|[-> Hd]]; [|by split].
      apply os_mkdir_Ok in E2 as (Hne & Hnone & _ & ->).
      split.
      * unfold is_dir. rewrite node_at_lookup by done. by rewrite lookup_insert_eq.
      * intros q. destruct (decide (q = rev (x :: rp))) as [->|Hq].
        -- right. rewrite lookup_insert_eq. split_and!; [|done|done].
           destruct (Hq1 (rev (x :: rp))) as [<-|(? & ? & ?)]; [done|congruence].
        -- rewrite lookup_insert_ne by done. apply Hup.
Qed.

Lemma mkdir_parents_Ok (σ σ' : FS) (p : path) :
  mkdir_parents σ p = Ok σ' → made_dirs σ σ' p.
Proof. unfold mkdir_parents. intros H%mkdir_rev_Ok. by rewrite rev_involutive in H. Qed.

Lemma write_file_Ok (σ σ' : FS) (t : path) (c : content) :
  write_file σ t c = Ok σ' →
  t ≠ [] ∧ σ !! t ≠ Some Dir ∧ σ' = <[t := File c]> σ.
Proof.
  unfold write_file. destruct t as [|x t]; [done|].
  rewrite node_at_lookup by done.
  destruct (σ !! (x :: t)) as [[]|] eqn:E; [by intros [= <-]|done|].
  destruct (node_at σ (parent (x :: t))) as [[]|]; [done| |done].
  by intros [= <-].
Qed.

Lemma exists_insert_ne (σ : FS) (p q : path) (n : node) :
  p ≠ q → exists_ (<[p := n]> σ) q = exists_ σ q.
Proof.
  intros Hne. unfold exists_. destruct q as [|y q]; [done|].
  rewrite !node_at_lookup by done. by rewrite lookup_insert_ne.
Qed.

Lemma made_dirs_write (σ σ1 σ' : FS) (t : path) (c : content) :
  (σ1 = σ ∧ exists_ σ (parent t) ∨ made_dirs σ σ1 (parent t)) →
  write_file σ1 t c = Ok σ' →
  written σ σ' t c.
Proof.
  intros Hmk (Hne & Hnd & ->)%write_file_Ok.
  assert (Hq : ∀ q, σ1 !! q = σ !! q ∨
                 (σ !! q = None ∧ σ1 !! q = Some Dir ∧ q `prefix_of` parent t)).
  { destruct Hmk as [[-> _]|[_ Hq]]; [by left|done]. }
  assert (Hex : exists_ σ1 (parent t)).
  { destruct Hmk as [[-> ?]|[Hd _]]; [done|].
    unfold is_dir in Hd. unfold exists_. by destruct (node_at σ1 (parent t)) as [[]|]. }
  split_and!; [done| |by rewrite lookup_insert_eq| |].
  - destruct (Hq t) as [<-|(_ & _ & Hpre)]; [done|].
    by apply not_prefix_parent in Hpre.
  - rewrite exists_insert_ne; [done|]. intros E. by apply (parent_neq t).
  - intros q Hqt. rewrite lookup_insert_ne by done.
    destruct (Hq q) as [?|(? & ? & Hpre)]; [by left|right].
    split_and!; [done..|]. etrans; [done|apply parent_prefix].
Qed.

Lemma merge_json_data_Ok (σ σ' : FS) (paths : list path) (t : path) :
  merge_json_data σ paths t = Ok σ' →
  ∃ data, load_all σ paths = Ok data ∧ written σ σ' t (json_dump data).
Proof.
  unfold merge_json_data. destruct (load_all σ paths) as [data|]; [|done]. simpl.
  intros H. exists data. split; [done|].
  destruct (exists_ σ (parent t)) eqn:Hex; simpl in H.
  - eapply made_dirs_write; [|done]. left. by rewrite Hex.
  - destruct (mkdir_parents σ (parent t)) as [σ1|] eqn:Hmk; [|done]. simpl in H.
    eapply made_dirs_write; [|done]. right. by apply mkdir_parents_Ok.
Qed.

Lemma copy_file_Ok (σ σ' : FS) (source t : path) :
  copy_file σ source t = Ok σ' →
  (exists_ σ t ∧ σ' = σ) ∨
  (¬ exists_ σ t ∧ ∃ c, node_at σ source = Some (File c) ∧ written σ σ' t c).
Proof.
  unfold copy_file. destruct (exists_ σ t) eqn:Hex; simpl.
  { intros [= <-]. by left. }
  intros H. right. split; [exact id|].
  destruct (mkdir_parents σ (parent t)) as [σ1|] eqn:Hmk; [|done]. simpl in H.
  apply mkdir_parents_Ok in Hmk.
  assert (Ht : t ≠ []) by (by intros ->).
  assert (Hnone : σ !! t = None).
  { unfold exists_ in Hex. rewrite node_at_lookup in Hex by done.
    by destruct (σ !! t). }
  assert (Hnd : is_dir σ1 t = false).
  { unfold is_dir. rewrite node_at_lookup by done.
    destruct Hmk as [_ Hq]. destruct (Hq t) as [->|(_ & _ & Hpre)].
    - by rewrite Hnone.
    - by apply not_prefix_parent in Hpre. }
  unfold shutil_copy in H. rewrite Hnd in H.
  unfold read_file in H.
  destruct (node_at σ1 source) as [[c|]|] eqn:Hsrc; [|done..]. simpl in H.
  exists c. split.
  - destruct source as [|x s]; [done|].
    rewrite node_at_lookup in * by done.
    destruct Hmk as [_ Hq]. destruct (Hq (x :: s)) as [<-|(_ & ? & _)]; [done|congruence].
  - eapply made_dirs_write; [|done]. by right.
Qed.

(** ** One entry of a traversal *)

Lemma written_exists (σ σ' : FS) (t : path) (c : content) (q : path) :
  written σ σ' t c → exists_ σ q → exists_ σ' q.
Proof.
  intros (Ht & _ & Hf & _ & Hq). unfold exists_.
  destruct q as [|y q]; [done|]. rewrite !node_at_lookup by done.
  destruct (decide (y :: q = t)) as [->|Hne]; [by rewrite Hf|].
  destruct (Hq _ Hne) as [->|(-> & _)]; done.
Qed.

Lemma process_entry_Ok (others : list path) (out p : path) (σ σ' : FS) :
  process_entry others out p σ = Ok σ' →
  exists_ σ p ∧ visit others out p σ σ'.
Proof.
  unfold process_entry, relative_path.
  destruct (is_file σ p) eqn:Hf; simpl.
  - destruct (String.eqb_spec (suffix p) ".json") as [Hj|Hj].
    + destruct (merge_json_data _ _ _) as [σ1|] eqn:E; [|done]. simpl.
      apply merge_json_data_Ok in E as (data & Hload & Hw).
      unfold stat. destruct (exists_ σ1 p) eqn:Hex; [|done]. simpl.
      intros [= <-]. split; [|by eapply visit_json; rewrite ?Hf].
      unfold is_file, exists_ in *. by destruct (node_at σ p).
    + destruct (String.eqb_spec (suffix p) ".lock") as [Hl|Hl]; simpl.
      * unfold stat. destruct (exists_ σ p) eqn:Hex; [|done]. simpl.
        intros [= <-]. split; [done|]. apply visit_skip; auto.
      * destruct (copy_file _ _ _) as [σ1|] eqn:E; [|done]. simpl.
        unfold stat. destruct (exists_ σ1 p) eqn:Hex; [|done]. simpl.
        intros [= <-].
        assert (Hp : exists_ σ p).
        { unfold is_file, exists_ in *. by destruct (node_at σ p). }
        split; [done|].
        apply copy_file_Ok in E as [[? ->]|(? & c & ? & ?)].
        -- apply visit_skip; auto.
        -- by eapply visit_copy.
  - unfold stat. destruct (exists_ σ p) eqn:Hex; [|done]. simpl.
    intros [= <-]. split; [done|]. apply visit_skip; auto.
Qed.

(** ** Loops *)

Lemma for_each_app {A S} (body : A → S → result S) (l1 l2 : list A) (s s' : S) :
  for_each body (l1 ++ l2) s = Ok s' ↔
  ∃ s1, for_each body l1 s = Ok s1 ∧ for_each body l2 s1 = Ok s'.
Proof.
  revert s. induction l1 as [|x l1 IH]; intros s; simpl.
  - split; [by exists s|]. by intros (s1 & [= <-] & ?).
  - destruct (body x s) as [s2|]; simpl; [apply IH|].
    split; [done|]. by intros (? & ? & _).
Qed.

Lemma for_each_inv {A S} (I : S → Prop) (body : A → S → result S) (l : list A) (s s' : S) :
  for_each body l s = Ok s' →
  I s →
  (∀ x s1 s2, x ∈ l → I s1 → body x s1 = Ok s2 → I s2) →
  I s'.
Proof.
  revert s. induction l as [|x l IH]; intros s; simpl.
  - by intros [= <-].
  - destruct (body x s) as [s2|] eqn:E; simpl; [|done].
    intros Hrun Hs Hstep. apply (IH s2); [done| |].
    + eapply Hstep; [|done..]. by left.
    + intros y s3 s4 Hy. apply Hstep. by right.
Qed.

Lemma process_directory_Ok (rglob : FS → path → list path) (d : path) (others : list path) (out : path) (σ σ' : FS) :
  process_directory rglob d others out σ = Ok σ' →
  exists_ σ d ∧ for_each (process_entry others out) (rglob σ d) σ = Ok σ'.
Proof.
  unfold process_directory, stat. by destruct (exists_ σ d).
Qed.

Lemma merge_caches_Ok (rglob : FS → path → list path) (caches : list path) (out : path) (σ σ' : FS) :
  merge_caches rglob caches out σ = Ok σ' →
  ∃ σ0, (σ0 = σ ∧ exists_ σ out ∨ made_dirs σ σ0 out) ∧
        for_each (λ cache τ,
          process_directory rglob cache (filter (λ c, c ≠ cache) caches) out τ)
          caches σ0 = Ok σ'.
Proof.
  unfold merge_caches. destruct (exists_ σ out) eqn:Hex; simpl.
  - intros H. exists σ. split; [by left|done].
  - destruct (mkdir_parents σ out) as [σ0|] eqn:Hmk; [|done]. simpl.
    intros H. exists σ0. split; [right; by apply mkdir_parents_Ok|done].
Qed.

(** An invariant of every visit, and of making the output directory, is
    an invariant of the whole merge. *)
Lemma merge_caches_inv (rglob : FS → path → list path) (I : FS → Prop) (caches : list path) (out : path) (σ σ' : FS) :
  merge_caches rglob caches out σ = Ok σ' →
  (∀ σ0, σ0 = σ ∧ exists_ σ out ∨ made_dirs σ σ0 out → I σ0) →
  (∀ c p τ τ', c ∈ caches → I τ →
     visit (filter (λ c', c' ≠ c) caches) out p τ τ' → I τ') →
  I σ'.
Proof.
  intros (σ0 & H0 & Hrun)%merge_caches_Ok Hinit Hstep.
  eapply for_each_inv; [exact Hrun|by apply Hinit|].
  intros c τ1 τ2 Hc Hτ1 (_ & Hdir)%process_directory_Ok.
  eapply for_each_inv; [exact Hdir|done|].
  intros p τ3 τ4 _ Hτ3 (_ & Hv)%process_entry_Ok. by eapply Hstep.
Qed.

(** ** Suffixes of output paths *)

Lemma name_app (a b : path) : b ≠ [] → name (a ++ b) = name b.
Proof.
  intros Hb. unfold name. rewrite last_app.
  destruct (last b) eqn:E; [done|]. by apply last_None in E.
Qed.

Lemma name_tail (p : path) : tail p ≠ [] → name (tail p) = name p.
Proof. destruct p as [|x [|y p]]; [done..|]. intros _. unfold name. by rewrite last_cons_cons. Qed.

Lemma suffix_output (out p : path) :
  tail p ≠ [] → suffix (out ++ tail p) = suffix p.
Proof.
  intros Ht. unfold suffix. by rewrite name_app, name_tail.
Qed.

Lemma made_dirs_is_file (σ σ' : FS) (p q : path) :
  made_dirs σ σ' p → is_file σ' q → is_file σ q.
Proof.
  intros [_ Hq]. unfold is_file. destruct q as [|y q]; [done|].
  rewrite !node_at_lookup by done.
  destruct (Hq (y :: q)) as [->|(_ & -> & _)]; done.
Qed.

Lemma made_dirs_exists (σ σ' : FS) (p q : path) :
  made_dirs σ σ' p → exists_ σ q → exists_ σ' q.
Proof.
  intros [_ Hq]. unfold exists_. destruct q as [|y q]; [done|].
  rewrite !node_at_lookup by done.
  destruct (Hq (y :: q)) as [->|(-> & _)]; done.
Qed.

Lemma is_dir_exists (σ : FS) (p : path) : is_dir σ p → exists_ σ p.
Proof. unfold is_dir, exists_. by destruct (node_at σ p) as [[]|]. Qed.

Lemma is_file_exists (σ : FS) (p : path) : is_file σ p → exists_ σ p.
Proof. unfold is_file, exists_. by destruct (node_at σ p) as [[]|]. Qed.

Lemma written_is_file_other (σ σ' : FS) (t : path) (c : content) (q : path) :
  written σ σ' t c → q ≠ t → is_file σ' q → is_file σ q.
Proof.
  intros (_ & _ & _ & _ & Hq) Hne. unfold is_file.
  destruct q as [|y q]; [done|]. rewrite !node_at_lookup by done.
  destruct (Hq _ Hne) as [->|(_ & -> & _)]; done.
Qed.

Lemma written_target_was_file (σ σ' : FS) (t : path) (c : content) :
  written σ σ' t c → exists_ σ t → is_file σ t.
Proof.
  intros (Ht & Hnd & _). unfold exists_, is_file.
  rewrite node_at_lookup by done. by destruct (σ !! t) as [[]|].
Qed.

(** C5.  Lock exclusion: a merge that completes creates no file whose
    suffix is the lock suffix; every such file of the resulting tree
    was a file at the same path before the merge, whatever the sources,
    the output directory and the order of traversal. *)
Theorem merge_creates_no_lock_file (rglob : FS → path → list path) (caches : list path) (out : path)
    (σ σ' : FS) (q : path) :
  merge_caches rglob caches out σ = Ok σ' →
  suffix q = ".lock" →
  is_file σ' q →
  is_file σ q.
Proof.
  intros Hrun Hlock Hq.
  cut (exists_ σ' out ∧ ∀ q, suffix q = ".lock" → is_file σ' q → is_file σ q).
  { intros [_ H]. by apply H. }
  clear q Hlock Hq.
  eapply (merge_caches_inv rglob
    (λ τ, exists_ τ out ∧ ∀ q, suffix q = ".lock" → is_file τ q → is_file σ q));
    [exact Hrun| |].
  - intros σ0 [[-> Hex]|Hmk]; [done|]. split.
    + apply is_dir_exists, Hmk.
    + intros q _. by eapply made_dirs_is_file.
  - intros c p τ τ' _ [Hout Hinv] Hv.
    assert (Hstep : ∀ t v, t = out ++ tail p → written τ τ' t v →
              suffix p ≠ ".lock" → (tail p = [] → exists_ τ t) →
              exists_ τ' out ∧ ∀ q, suffix q = ".lock" → is_file τ' q → is_file σ q).
    { intros t v Ht Hw Hsuf Hnil. split; [by eapply written_exists|].
      intros q Hlock Hq. apply Hinv; [done|].
      destruct (decide (q = t)) as [->|Hne]; [|by eapply written_is_file_other].
      destruct (decide (tail p = [])) as [Hnil'|Hcons].
      - eapply written_target_was_file; [done|]. by apply Hnil.
      - rewrite Ht, suffix_output in Hlock by done. by destruct Hsuf. }
    destruct Hv as [-> _|data _ Hj _ Hw|v Hj Hl Hnex _ Hw]; [done| |].
    + eapply Hstep; [done..| |]; [by rewrite Hj|].
      intros ->. by rewrite app_nil_r.
    + eapply Hstep; [done..|]. intros E. rewrite E, app_nil_r in Hnex. by destruct Hnex.
Qed.

(** ** Sources apart from the output *)

Lemma for_each_ext {A S} (f g : A → S → result S) (l : list A) (s : S) :
  (∀ x s, x ∈ l → f x s = g x s) → for_each f l s = for_each g l s.
Proof.
  revert s. induction l as [|x l IH]; intros s Hfg; simpl; [done|].
  rewrite Hfg by (by left). destruct (g x s) as [s'|]; simpl; [|done].
  apply IH. intros y s2 Hy. apply Hfg. by right.
Qed.

Lemma load_all_ext (σ τ : FS) (paths : list path) :
  (∀ p, p ∈ paths → node_at τ p = node_at σ p) →
  load_all τ paths = load_all σ paths.
Proof.
  intros H. unfold load_all. apply for_each_ext.
  intros p data Hp. unfold exists_, read_file. by rewrite (H p Hp).
Qed.

Lemma filter_ext_elem {A} (P Q : A → Prop) `{!∀ x, Decision (P x), !∀ x, Decision (Q x)}
    (l : list A) :
  (∀ x, x ∈ l → P x ↔ Q x) → filter P l = filter Q l.
Proof.
  induction l as [|x l IH]; intros Hext; [done|].
  rewrite !filter_cons, IH by (intros y Hy; apply Hext; by right).
  apply decide_ext, Hext. by left.
Qed.

Section Apart.

Variables (caches : list path) (out : path).
Hypothesis Hapart : apart caches out.

Lemma apart_elem (c : path) :
  c ∈ caches → ¬ c `prefix_of` out ∧ ¬ out `prefix_of` c.
Proof. intros Hc. unfold apart in Hapart. rewrite Forall_forall in Hapart. by apply Hapart. Qed.

Lemma cache_nonempty (c : path) : c ∈ caches → c ≠ [].
Proof. intros [Hc _]%apart_elem ->. apply Hc, prefix_nil. Qed.

Lemma out_nonempty (c : path) : c ∈ caches → out ≠ [].
Proof. intros [_ Hc]%apart_elem ->. apply Hc, prefix_nil. Qed.

(** A path inside a source is no prefix of a path inside the output. *)
Lemma apart_prefix (c q rel : path) :
  c ∈ caches → c `prefix_of` q → ¬ q `prefix_of` out ++ rel.
Proof.
  intros [H1 H2]%apart_elem Hcq Hq.
  assert (Hc : c `prefix_of` out ++ rel) by (by etrans).
  destruct (prefix_weak_total c out (out ++ rel)) as [?|?]; [done| |done..].
  by apply prefix_app_r.
Qed.

Lemma agree_refl (σ : FS) : agree caches σ σ.
Proof. by intros c q _ _. Qed.

Lemma made_dirs_agree (σ τ τ' : FS) :
  agree caches σ τ → made_dirs τ τ' out → agree caches σ τ'.
Proof.
  intros Hag [_ Hq] c q Hc Hcq. rewrite <-(Hag c q Hc Hcq).
  destruct (Hq q) as [?|(_ & _ & Hpre)]; [done|].
  destruct (apart_prefix c q [] Hc Hcq). by rewrite app_nil_r.
Qed.

Lemma written_agree (σ τ τ' : FS) (rel : path) (v : content) :
  agree caches σ τ → written τ τ' (out ++ rel) v → agree caches σ τ'.
Proof.
  intros Hag (_ & _ & _ & _ & Hq) c q Hc Hcq. rewrite <-(Hag c q Hc Hcq).
  assert (Hne : q ≠ out ++ rel).
  { intros ->. by apply (apart_prefix c (out ++ rel) rel). }
  destruct (Hq q Hne) as [?|(_ & _ & Hpre)]; [done|].
  by destruct (apart_prefix c q rel).
Qed.

Lemma visit_agree (σ τ τ' : FS) (others : list path) (p : path) :
  agree caches σ τ → visit others out p τ τ' → agree caches σ τ'.
Proof.
  intros Hag [-> _|data _ _ _ Hw|v _ _ _ _ Hw]; [done|by eapply written_agree..].
Qed.

Lemma node_at_agree (σ τ : FS) (c q : path) :
  agree caches σ τ → c ∈ caches → c `prefix_of` q → node_at τ q = node_at σ q.
Proof.
  intros Hag Hc Hcq. destruct q as [|y q]; [done|].
  rewrite !node_at_lookup by done. by eapply Hag.
Qed.

Lemma below_agree (σ τ : FS) (c p : path) :
  agree caches σ τ → c ∈ caches → below τ c p ↔ below σ c p.
Proof.
  intros Hag Hc. unfold below.
  assert (Hin : ∀ q, q ∈ dirs_between c p → c `prefix_of` p → c `prefix_of` q).
  { intros q Hq [k ->]. unfold dirs_between in Hq.
    apply list_elem_of_fmap in Hq as (n & -> & Hn).
    apply elem_of_seq in Hn. rewrite take_app_ge by lia. by apply prefix_app_r. }
  split; intros (Hpre & Hne & Hex & Hall); split_and!; try done.
  - unfold exists_. by rewrite <-(node_at_agree σ τ c p).
  - rewrite Forall_forall in *. intros q Hq. unfold is_dir.
    rewrite <-(node_at_agree σ τ c q) by auto. by apply Hall.
  - unfold exists_. by rewrite (node_at_agree σ τ c p).
  - rewrite Forall_forall in *. intros q Hq. unfold is_dir.
    rewrite (node_at_agree σ τ c q) by auto. by apply Hall.
Qed.

Lemma corresponding_paths_agree (σ τ : FS) (others : list path) (rel : path) :
  agree caches σ τ → others ⊆ caches →
  corresponding_paths τ others rel = corresponding_paths σ others rel.
Proof.
  intros Hag Hsub. unfold corresponding_paths.
  apply filter_ext_elem. intros q (c & -> & Hc)%list_elem_of_fmap.
  unfold exists_. rewrite (node_at_agree σ τ c); [done..|auto|by apply prefix_app_r].
Qed.

Lemma others_subseteq (c : path) : filter (λ c', c' ≠ c) caches ⊆ caches.
Proof. intros c' Hc'. by apply list_elem_of_filter in Hc' as [_ ?]. Qed.

(** The documents loaded for [p] are those the sources held at the
    start, whatever was written to the output meanwhile. *)
Lemma load_all_agree (σ τ : FS) (c p : path) :
  agree caches σ τ → c ∈ caches → c `prefix_of` p →
  load_all τ (p :: corresponding_paths τ (filter (λ c', c' ≠ c) caches) (tail p)) =
  load_all σ (p :: corresponding_paths σ (filter (λ c', c' ≠ c) caches) (tail p)).
Proof.
  intros Hag Hc Hcp.
  rewrite (corresponding_paths_agree σ τ) by auto using others_subseteq.
  apply load_all_ext. intros q Hq. apply elem_of_cons in Hq as [->|Hq].
  - by apply (node_at_agree σ τ c).
  - unfold corresponding_paths in Hq.
    apply list_elem_of_filter in Hq as [_ (c' & -> & Hc')%list_elem_of_fmap].
    apply (node_at_agree σ τ c'); [done| |by apply prefix_app_r].
    by apply others_subseteq in Hc'.
Qed.

Variable rglob : FS → path → list path.
Hypothesis Hrglob : lists_below rglob.

(** An invariant of the visits of what lies below the sources. *)
Lemma process_directory_inv (I : FS → Prop) (σ τ τ' : FS) (c : path) :
  c ∈ caches →
  process_directory rglob c (filter (λ c', c' ≠ c) caches) out τ = Ok τ' →
  agree caches σ τ → I τ →
  (∀ p τ1 τ2, below σ c p → agree caches σ τ1 → I τ1 →
     visit (filter (λ c', c' ≠ c) caches) out p τ1 τ2 → I τ2) →
  agree caches σ τ' ∧ I τ'.
Proof.
  intros Hc (_ & Hrun)%process_directory_Ok Hag HI Hstep.
  eapply (for_each_inv (λ τ, agree caches σ τ ∧ I τ)); [exact Hrun|done|].
  intros p τ1 τ2 Hp [Hag1 HI1] (_ & Hv)%process_entry_Ok.
  split; [by eapply visit_agree|].
  eapply Hstep; [|done..]. apply (below_agree σ τ); [done..|]. by apply Hrglob.
Qed.

Lemma for_each_directories_inv (I : FS → Prop) (σ τ τ' : FS) (l : list path) :
  l ⊆ caches →
  for_each (λ cache τ,
    process_directory rglob cache (filter (λ c, c ≠ cache) caches) out τ) l τ = Ok τ' →
  agree caches σ τ → I τ →
  (∀ c p τ1 τ2, c ∈ l → below σ c p → agree caches σ τ1 → I τ1 →
     visit (filter (λ c', c' ≠ c) caches) out p τ1 τ2 → I τ2) →
  agree caches σ τ' ∧ I τ'.
Proof.
  intros Hsub Hrun Hag HI Hstep.
  eapply (for_each_inv (λ τ, agree caches σ τ ∧ I τ)); [exact Hrun|done|].
  intros c τ1 τ2 Hc [Hag1 HI1] Hdir.
  eapply process_directory_inv; [by apply Hsub|done..|].
  intros p τ3 τ4. by apply Hstep.
Qed.

(** The visit of [p] in source [c] establishes [Post], which the later
    visits keep; the earlier ones keep [Pre]. *)
Lemma merge_caches_event (Pre Post : FS → Prop) (σ σ' : FS) (l1 l2 : list path) (c p : path) :
  caches = l1 ++ c :: l2 →
  below σ c p →
  merge_caches rglob caches out σ = Ok σ' →
  (∀ σ0, σ0 = σ ∨ made_dirs σ σ0 out → Pre σ0) →
  (∀ c' p' τ τ', c' ∈ l1 ∨ c' = c ∧ p' ≠ p →
     below σ c' p' → agree caches σ τ → Pre τ →
     visit (filter (λ c0, c0 ≠ c') caches) out p' τ τ' → Pre τ') →
  (∀ τ τ', agree caches σ τ → Pre τ →
     visit (filter (λ c0, c0 ≠ c) caches) out p τ τ' → Post τ') →
  (∀ c' p' τ τ', c' = c ∨ c' ∈ l2 →
     below σ c' p' → agree caches σ τ → Post τ →
     visit (filter (λ c0, c0 ≠ c') caches) out p' τ τ' → Post τ') →
  agree caches σ σ' ∧ Post σ'.
Proof.
  intros Hsplit Hp (σ0 & H0 & Hrun)%merge_caches_Ok Hinit Hpre Hevent Hpost.
  assert (Hc : c ∈ caches).
  { rewrite Hsplit. apply elem_of_app. right. by left. }
  assert (Hag0 : agree caches σ σ0).
  { destruct H0 as [[-> _]|?]; [apply agree_refl|].
    eapply made_dirs_agree; [apply agree_refl|done]. }
  assert (HPre0 : Pre σ0).
  { apply Hinit. destruct H0 as [[-> _]|?]; auto. }
  set (body := λ cache τ, process_directory rglob cache _ out τ) in Hrun.
  assert (Hrun' : for_each body (l1 ++ c :: l2) σ0 = Ok σ') by (by rewrite <-Hsplit).
  clear Hrun. subst body.
  apply for_each_app in Hrun' as (τ1 & Hrun1 & Hrun2). simpl in Hrun2.
  destruct (process_directory rglob c _ out τ1) as [τ2|] eqn:Hdir; [|done].
  simpl in Hrun2.
  (* the sources before [c] *)
  destruct (for_each_directories_inv Pre σ σ0 τ1 l1) as [Hag1 HPre1]; [|done..| |].
  { rewrite Hsplit. intros x Hx. apply elem_of_app. by left. }
  { intros c' p' τ τ' Hc'. apply Hpre. by left. }
  (* source [c], up to the first visit of [p] *)
  apply process_directory_Ok in Hdir as (_ & Hdir).
  assert (Hin : p ∈ rglob τ1 c).
  { apply Hrglob. by apply (below_agree σ τ1). }
  apply list_elem_of_split_l in Hin as (L1 & L2 & HL & Hnotin).
  rewrite HL in Hdir. apply for_each_app in Hdir as (τa & Hdir1 & Hdir2).
  simpl in Hdir2.
  destruct (process_entry _ out p τa) as [τb|] eqn:Hentry; [|done]. simpl in Hdir2.
  assert (Hbelow : ∀ p', p' ∈ rglob τ1 c → below σ c p').
  { intros p' Hp'. apply (below_agree σ τ1); [done..|]. by apply Hrglob. }
  assert (Ha : agree caches σ τa ∧ Pre τa).
  { eapply (for_each_inv (λ τ, agree caches σ τ ∧ Pre τ)); [exact Hdir1|done|].
    intros p' τ τ' Hp' [Hag HP] (_ & Hv)%process_entry_Ok.
    split; [by eapply visit_agree|].
    eapply (Hpre c p'); [|apply Hbelow|done..].
    - right. split; [done|]. by intros ->.
    - rewrite HL. apply elem_of_app. by left. }
  destruct Ha as [Haga HPrea].
  apply process_entry_Ok in Hentry as (_ & Hv).
  assert (Hb : agree caches σ τb ∧ Post τb).
  { split; [by eapply visit_agree|by eapply Hevent]. }
  (* the rest of source [c] *)
  assert (H2 : agree caches σ τ2 ∧ Post τ2).
  { eapply (for_each_inv (λ τ, agree caches σ τ ∧ Post τ)); [exact Hdir2|done|].
    intros p' τ τ' Hp' [Hag HP] (_ & Hv')%process_entry_Ok.
    split; [by eapply visit_agree|].
    eapply (Hpost c p'); [by left|apply Hbelow|done..].
    rewrite HL. apply elem_of_app. right. by right. }
  destruct H2 as [Hag2 HPost2].
  (* the sources after [c] *)
  eapply (for_each_directories_inv Post σ τ2 σ' l2); [|done..|].
  { rewrite Hsplit. intros x Hx. apply elem_of_app. right. by right. }
  intros c' p' τ τ' Hc'. apply Hpost. by right.
Qed.

Lemma below_shape (σ : FS) (c p : path) :
  c ∈ caches → below σ c p →
  ∃ h ct r, c = h :: ct ∧ p = h :: ct ++ r ∧ r ≠ [].
Proof.
  intros Hc ([r ->] & Hne & _). destruct c as [|h ct].
  - by apply cache_nonempty in Hc.
  - exists h, ct, r. split_and!; [done..|]. intros ->. by rewrite app_nil_r in Hne.
Qed.

Lemma below_tail_nonempty (σ : FS) (c p : path) :
  c ∈ caches → below σ c p → tail p ≠ [].
Proof.
  intros Hc (h & ct & r & -> & -> & Hr)%below_shape; [|done]. simpl.
  by destruct ct, r.
Qed.

Lemma below_tail_inj (σ : FS) (c p p' : path) :
  c ∈ caches → below σ c p → below σ c p' → tail p = tail p' → p = p'.
Proof.
  intros Hc Hp Hp'.
  destruct (below_shape σ c p) as (h & ct & r & E & -> & _); [done..|].
  destruct (below_shape σ c p') as (h' & ct' & r' & E' & -> & _); [done..|].
  simpl. intros ->. congruence.
Qed.

Lemma is_file_agree (σ τ : FS) (c p : path) :
  agree caches σ τ → c ∈ caches → below σ c p → is_file τ p = is_file σ p.
Proof.
  intros Hag Hc (Hpre & _). unfold is_file. by rewrite (node_at_agree σ τ c p).
Qed.

Lemma written_kept (τ τ' : FS) (t q : path) (v : content) :
  written τ τ' t v → q ≠ t → is_Some (τ !! q) → τ' !! q = τ !! q.
Proof.
  intros (_ & _ & _ & _ & Hq) Hne [n Hn].
  destruct (Hq q Hne) as [?|(? & _)]; [done|congruence].
Qed.

Lemma output_inj (a b : path) : out ++ a = out ++ b → a = b.
Proof. apply app_inv_head. Qed.

(** The last source that holds a structured entry decides the output. *)
Lemma json_last_writer (σ σ' : FS) (l1 l2 : list path) (c p : path) :
  caches = l1 ++ c :: l2 →
  below σ c p → is_file σ p → suffix p = ".json" →
  (∀ c' p', c' ∈ l2 → below σ c' p' → is_file σ p' → suffix p' = ".json" →
     tail p' ≠ tail p) →
  merge_caches rglob caches out σ = Ok σ' →
  ∃ data,
    load_all σ (p :: corresponding_paths σ (filter (λ c', c' ≠ c) caches) (tail p)) = Ok data ∧
    σ' !! (out ++ tail p) = Some (File (json_dump data)).
Proof.
  intros Hsplit Hp Hf Hj Hlast Hrun.
  assert (Hc : c ∈ caches).
  { rewrite Hsplit. apply elem_of_app. right. by left. }
  eapply (merge_caches_event (λ _, True)
    (λ τ, ∃ data, load_all σ (p :: corresponding_paths σ
                                (filter (λ c', c' ≠ c) caches) (tail p)) = Ok data ∧
                  τ !! (out ++ tail p) = Some (File (json_dump data))));
    [exact Hsplit|exact Hp|exact Hrun|done|done| |].
  - intros τ τ' Hag _ Hv.
    destruct Hv as [_ [Hnf|[Hl|[Hnj _]]]|data _ _ Hload Hw|v Hnj _ _ _ _]; try done.
    + rewrite (is_file_agree σ τ c p) in Hnf by done. by rewrite Hnf in Hf.
    + by rewrite Hj in Hl.
    + exists data. split; [|apply Hw].
      rewrite <-(load_all_agree σ τ c p); [done..|apply Hp].
  - intros c' p' τ τ' Hc' Hp' Hag (data & Hload & Ht) Hv.
    exists data. split; [done|].
    assert (Hc'in : c' ∈ caches).
    { destruct Hc' as [->|?]; [done|]. rewrite Hsplit.
      apply elem_of_app. right. by right. }
    destruct Hv as [-> _|data' Hf' Hj' Hload' Hw|v _ _ Hnex _ Hw]; [done| |].
    + destruct (decide (tail p' = tail p)) as [Heq|Hne].
      * destruct Hc' as [->|Hc'].
        -- assert (p' = p) as -> by (by eapply below_tail_inj).
           rewrite (load_all_agree σ τ c p) in Hload'; [|done..|apply Hp].
           rewrite Hload in Hload'. injection Hload' as <-. apply Hw.
        -- destruct (Hlast c' p'); try done.
           by rewrite <-(is_file_agree σ τ c' p').
      * rewrite (written_kept τ τ' _ _ _ Hw); [done| |by rewrite Ht].
        intros E. by apply output_inj in E.
    + destruct (decide (tail p' = tail p)) as [Heq|Hne].
      * destruct Hnex. rewrite Heq. unfold exists_.
        rewrite node_at_lookup, Ht; [done|].
        intros E. apply app_eq_nil in E as [E _]. by apply (out_nonempty c) in E.
      * rewrite (written_kept τ τ' _ _ _ Hw); [done| |by rewrite Ht].
        intros E. by apply output_inj in E.
Qed.

Lemma below_is_dir (σ : FS) (c p q : path) :
  below σ c p → c `prefix_of` q → q `prefix_of` p → q ≠ p → is_dir σ q.
Proof.
  intros (_ & _ & _ & Hall) Hcq Hqp Hne. rewrite Forall_forall in Hall.
  apply Hall. unfold dirs_between. apply list_elem_of_fmap.
  exists (length q). destruct Hqp as [k ->]. split.
  - by rewrite take_app_length.
  - apply elem_of_seq. apply prefix_length in Hcq. rewrite length_app.
    destruct k; [by rewrite app_nil_r in Hne|simpl; lia].
Qed.

Lemma file_not_dir (σ : FS) (p : path) : is_file σ p → is_dir σ p → False.
Proof. unfold is_file, is_dir. by destruct (node_at σ p) as [[]|]. Qed.

Lemma output_lookup (τ : FS) (c rel : path) :
  c ∈ caches → node_at τ (out ++ rel) = τ !! (out ++ rel).
Proof.
  intros Hc. apply node_at_lookup. intros E.
  apply app_eq_nil in E as [E _]. by apply (out_nonempty c) in E.
Qed.

(** The first source that holds an opaque entry decides the output. *)
Lemma opaque_first_writer (σ σ' : FS) (l1 l2 : list path) (c p : path) (b : content) :
  caches = l1 ++ c :: l2 →
  below σ c p → node_at σ p = Some (File b) →
  suffix p ≠ ".json" → suffix p ≠ ".lock" →
  σ !! (out ++ tail p) = None →
  (∀ c' p', c' ∈ l1 → below σ c' p' → is_file σ p' → suffix p' ≠ ".lock" →
     ¬ tail p `prefix_of` tail p') →
  merge_caches rglob caches out σ = Ok σ' →
  σ' !! (out ++ tail p) = Some (File b).
Proof.
  intros Hsplit Hp Hb Hnj Hnl Hfresh Hfirst Hrun.
  assert (Hc : c ∈ caches).
  { rewrite Hsplit. apply elem_of_app. right. by left. }
  assert (Hf : is_file σ p) by (unfold is_file; by rewrite Hb).
  assert (Htl : tail p ≠ []) by (by eapply below_tail_nonempty).
  eapply (merge_caches_event (λ τ, τ !! (out ++ tail p) = None)
    (λ τ, τ !! (out ++ tail p) = Some (File b)));
    [exact Hsplit|exact Hp|exact Hrun| | | |].
  - intros σ0 [->|[_ Hq]]; [done|].
    destruct (Hq (out ++ tail p)) as [->|(_ & _ & Hpre)]; [done|].
    apply prefix_length in Hpre. rewrite length_app in Hpre.
    destruct (tail p); [done|simpl in Hpre; lia].
  - intros c' p' τ τ' Hc' Hp' Hag Hnone Hv.
    assert (Hc'in : c' ∈ caches).
    { destruct Hc' as [?|[-> _]]; [|done]. rewrite Hsplit.
      apply elem_of_app. by left. }
    assert (Hstep : ∀ v, is_file τ p' → suffix p' ≠ ".lock" →
              written τ τ' (out ++ tail p') v → τ' !! (out ++ tail p) = None).
    { intros v Hf' Hl' Hw.
      rewrite (is_file_agree σ τ c' p') in Hf' by done.
      assert (Hnpre : ¬ tail p `prefix_of` tail p').
      { destruct Hc' as [Hc'|[-> Hne]]; [by apply (Hfirst c' p')|].
        intros Hpre.
        destruct (below_shape σ c p) as (h & ct & r & E & Ep & _); [done..|].
        destruct (below_shape σ c p') as (h' & ct' & r' & E' & Ep' & _); [done..|].
        assert (h' = h ∧ ct' = ct) as [-> ->] by (split; congruence).
        apply (file_not_dir σ p); [done|].
        apply (below_is_dir σ c p' p); [done|apply Hp| |by intros ->].
        rewrite Ep, Ep' in *. by apply prefix_cons. }
      destruct Hw as (_ & _ & _ & _ & Hq).
      destruct (Hq (out ++ tail p)) as [->|(_ & _ & Hpre)]; [|done|].
      - intros E. apply output_inj in E. by rewrite E in Hnpre.
      - by apply prefix_app_inv in Hpre. }
    destruct Hv as [-> _|data Hf' Hj' _ Hw|v _ Hl' _ Hsrc Hw]; [done| |].
    + eapply Hstep; [done| |done]. by rewrite Hj'.
    + eapply Hstep; [|done..]. unfold is_file. by rewrite Hsrc.
  - intros τ τ' Hag Hnone Hv.
    destruct Hv as [_ [Hnf|[Hl|[_ Hex]]]|data _ Hj _ _|v _ _ _ Hsrc Hw]; try done.
    + rewrite (is_file_agree σ τ c p) in Hnf by done. by rewrite Hnf in Hf.
    + unfold exists_ in Hex. by rewrite (output_lookup τ c), Hnone in Hex.
    + rewrite (node_at_agree σ τ c p), Hb in Hsrc; [|done..|apply Hp].
      injection Hsrc as <-. apply Hw.
  - intros c' p' τ τ' Hc' Hp' Hag Ht Hv.
    assert (Hc'in : c' ∈ caches).
    { destruct Hc' as [->|?]; [done|]. rewrite Hsplit.
      apply elem_of_app. right. by right. }
    assert (Htl' : tail p' ≠ []) by (by eapply below_tail_nonempty).
    destruct Hv as [-> _|data _ Hj' _ Hw|v _ _ Hnex _ Hw]; [done| |].
    + rewrite (written_kept τ τ' _ _ _ Hw); [done| |by rewrite Ht].
      intros E. apply output_inj in E.
      apply Hnj. by rewrite <-(suffix_output out p), E, suffix_output.
    + rewrite (written_kept τ τ' _ _ _ Hw); [done| |by rewrite Ht].
      intros E. destruct Hnex. unfold exists_.
      by rewrite <-E, (output_lookup τ c), Ht.
Qed.

(** *** What a completed merge leaves behind *)

Lemma visit_exists (others : list path) (p q : path) (τ τ' : FS) :
  visit others out p τ τ' → exists_ τ q → exists_ τ' q.
Proof. intros [-> _|data _ _ _ Hw|v _ _ _ _ Hw]; [done|by eapply written_exists..]. Qed.

Lemma written_is_file (τ τ' : FS) (t q : path) (v : content) :
  written τ τ' t v → is_file τ q → is_file τ' q.
Proof.
  intros Hw. unfold is_file. destruct q as [|y q]; [done|].
  rewrite !node_at_lookup by done.
  destruct (decide (y :: q = t)) as [->|Hne].
  - destruct Hw as (_ & _ & -> & _). done.
  - destruct (τ !! (y :: q)) eqn:E; [|done].
    by rewrite (written_kept τ τ' _ _ _ Hw), E.
Qed.

Lemma visit_is_file (others : list path) (p q : path) (τ τ' : FS) :
  visit others out p τ τ' → is_file τ q → is_file τ' q.
Proof. intros [-> _|data _ _ _ Hw|v _ _ _ _ Hw]; [done|by eapply written_is_file..]. Qed.

Lemma merge_caches_agree (σ σ' : FS) :
  merge_caches rglob caches out σ = Ok σ' → agree caches σ σ'.
Proof.
  intros Hrun. eapply (merge_caches_inv rglob (agree caches σ)); [exact Hrun| |].
  - intros σ0 [[-> _]|?]; [apply agree_refl|].
    eapply made_dirs_agree; [apply agree_refl|done].
  - intros c p τ τ' _. apply visit_agree.
Qed.

Lemma merge_caches_out_exists (σ σ' : FS) :
  merge_caches rglob caches out σ = Ok σ' → exists_ σ' out.
Proof.
  intros Hrun. eapply (merge_caches_inv rglob (λ τ, exists_ τ out)); [exact Hrun| |].
  - intros σ0 [[-> ?]|[? _]]; [done|by apply is_dir_exists].
  - intros c p τ τ' _ Hex Hv. by eapply visit_exists.
Qed.

Lemma merge_caches_source_exists (σ σ' : FS) (c : path) :
  merge_caches rglob caches out σ = Ok σ' → c ∈ caches → exists_ σ c.
Proof.
  intros (σ0 & H0 & Hrun)%merge_caches_Ok Hc.
  assert (Hag0 : agree caches σ σ0).
  { destruct H0 as [[-> _]|?]; [apply agree_refl|].
    eapply made_dirs_agree; [apply agree_refl|done]. }
  destruct (list_elem_of_split _ _ Hc) as (l1 & l2 & Hsplit).
  set (body := λ cache τ, process_directory rglob cache _ out τ) in Hrun.
  assert (Hrun' : for_each body (l1 ++ c :: l2) σ0 = Ok σ') by (by rewrite <-Hsplit).
  clear Hrun. subst body.
  apply for_each_app in Hrun' as (τ1 & Hrun1 & Hrun2). simpl in Hrun2.
  destruct (process_directory rglob c _ out τ1) as [τ2|] eqn:Hdir; [|done].
  apply process_directory_Ok in Hdir as (Hex & _).
  destruct (for_each_directories_inv (λ _, True) σ σ0 τ1 l1) as [Hag1 _]; [|done..|].
  { rewrite Hsplit. intros x Hx. apply elem_of_app. by left. }
  unfold exists_ in *. by rewrite <-(node_at_agree σ τ1 c c).
Qed.

(** A structured entry of a source has been loaded and written. *)
Lemma merge_caches_json_done (σ σ' : FS) (c p : path) :
  merge_caches rglob caches out σ = Ok σ' →
  c ∈ caches → below σ c p → is_file σ p → suffix p = ".json" →
  (∃ data, load_all σ (p :: corresponding_paths σ
                         (filter (λ c', c' ≠ c) caches) (tail p)) = Ok data) ∧
  is_file σ' (out ++ tail p) ∧ exists_ σ' (parent (out ++ tail p)).
Proof.
  intros Hrun Hc Hp Hf Hj.
  destruct (list_elem_of_split _ _ Hc) as (l1 & l2 & Hsplit).
  eapply (merge_caches_event (λ _, True)
    (λ τ, (∃ data, load_all σ (p :: corresponding_paths σ
                         (filter (λ c', c' ≠ c) caches) (tail p)) = Ok data) ∧
          is_file τ (out ++ tail p) ∧ exists_ τ (parent (out ++ tail p))));
    [exact Hsplit|exact Hp|exact Hrun|done|done| |].
  - intros τ τ' Hag _ Hv.
    destruct Hv as [_ [Hnf|[Hl|[Hnj _]]]|data _ _ Hload Hw|v Hnj _ _ _ _]; try done.
    + rewrite (is_file_agree σ τ c p) in Hnf by done. by rewrite Hnf in Hf.
    + by rewrite Hj in Hl.
    + split_and!.
      * exists data. rewrite <-(load_all_agree σ τ c p); [done..|apply Hp].
      * unfold is_file. rewrite (output_lookup τ' c) by done.
        destruct Hw as (_ & _ & -> & _). done.
      * apply Hw.
  - intros c' p' τ τ' _ _ _ (Hd & Hfile & Hex) Hv. split_and!; [done| |].
    + by eapply visit_is_file.
    + by eapply visit_exists.
Qed.

(** An opaque entry of a source has a place in the output. *)
Lemma merge_caches_copy_done (σ σ' : FS) (c p : path) :
  merge_caches rglob caches out σ = Ok σ' →
  c ∈ caches → below σ c p → is_file σ p →
  suffix p ≠ ".json" → suffix p ≠ ".lock" →
  exists_ σ' (out ++ tail p).
Proof.
  intros Hrun Hc Hp Hf Hj Hl.
  destruct (list_elem_of_split _ _ Hc) as (l1 & l2 & Hsplit).
  eapply (merge_caches_event (λ _, True) (λ τ, exists_ τ (out ++ tail p)));
    [exact Hsplit|exact Hp|exact Hrun|done|done| |].
  - intros τ τ' Hag _ Hv.
    destruct Hv as [-> [Hnf|[?|[_ ?]]]|data _ ? _ _|v _ _ _ _ Hw]; try done.
    + rewrite (is_file_agree σ τ c p) in Hnf by done. by rewrite Hnf in Hf.
    + unfold exists_. rewrite (output_lookup τ' c) by done.
      destruct Hw as (_ & _ & -> & _). done.
  - intros c' p' τ τ' _ _ _ Hex Hv. by eapply visit_exists.
Qed.

(** *** Merging again *)

Lemma for_each_progress {A S} (I : S → Prop) (body : A → S → result S)
    (l : list A) (s : S) :
  I s →
  (∀ x s1, x ∈ l → I s1 → ∃ s2, body x s1 = Ok s2 ∧ I s2) →
  ∃ s', for_each body l s = Ok s' ∧ I s'.
Proof.
  revert s. induction l as [|x l IH]; intros s Hs Hstep; simpl; [by exists s|].
  destruct (Hstep x s) as (s2 & -> & Hs2); [by left|done|]. simpl.
  apply IH; [done|]. intros y s3 Hy. apply Hstep. by right.
Qed.

Lemma merge_json_data_again (τ : FS) (paths : list path) (t : path)
    (data : list (string * json)) :
  load_all τ paths = Ok data →
  exists_ τ (parent t) → is_file τ t →
  merge_json_data τ paths t = Ok (<[t := File (json_dump data)]> τ).
Proof.
  intros Hload Hex Hf. unfold merge_json_data. rewrite Hload. simpl.
  destruct (exists_ τ (parent t)); [|done]. simpl.
  unfold write_file. unfold is_file in Hf.
  by destruct (node_at τ t) as [[]|].
Qed.

Lemma copy_file_again (τ : FS) (p t : path) :
  exists_ τ t → copy_file τ p t = Ok τ.
Proof. intros Hex. unfold copy_file. by destruct (exists_ τ t). Qed.

Lemma remerging_exists (σ σ' τ : FS) (q : path) :
  remerging caches out σ σ' τ → exists_ σ' q → exists_ τ q.
Proof.
  intros [_ H]. destruct q as [|y q]; [done|].
  destruct (H (y :: q)) as [E|(? & _)]; [|intros _; by apply is_file_exists].
  unfold exists_. rewrite !node_at_lookup by done. by rewrite E.
Qed.

Lemma remerging_is_file (σ σ' τ : FS) (q : path) :
  remerging caches out σ σ' τ → is_file σ' q → is_file τ q.
Proof.
  intros [_ H]. destruct q as [|y q]; [done|].
  destruct (H (y :: q)) as [E|(? & _)]; [|done].
  unfold is_file. rewrite !node_at_lookup by done. by rewrite E.
Qed.

Lemma process_entry_again (σ σ' τ : FS) (c p : path) :
  merge_caches rglob caches out σ = Ok σ' →
  c ∈ caches → below σ c p → remerging caches out σ σ' τ →
  ∃ τ', process_entry (filter (λ c', c' ≠ c) caches) out p τ = Ok τ' ∧
        remerging caches out σ σ' τ'.
Proof.
  intros Hrun Hc Hp [Hag Hτ].
  assert (Hex : exists_ τ p).
  { unfold exists_. rewrite (node_at_agree σ τ c p); [|done..|apply Hp]. apply Hp. }
  assert (Hskip : is_file σ p = false ∨ suffix p = ".lock" ∨
            (is_file σ p ∧ suffix p ≠ ".json" ∧ suffix p ≠ ".lock") →
          ∃ τ', process_entry (filter (λ c', c' ≠ c) caches) out p τ = Ok τ' ∧
                remerging caches out σ σ' τ').
  { intros Hcase. exists τ. split; [|done].
    unfold process_entry, relative_path. rewrite (is_file_agree σ τ c p) by done.
    destruct (is_file σ p) eqn:Hf; simpl.
    - destruct (String.eqb_spec (suffix p) ".json") as [Hj|Hj].
      + destruct Hcase as [?|[Hl|(_ & ? & _)]]; [done| |done].
        by rewrite Hj in Hl.
      + destruct (String.eqb_spec (suffix p) ".lock") as [Hl|Hl]; simpl.
        * unfold stat. by destruct (exists_ τ p).
        * rewrite copy_file_again.
          -- simpl. unfold stat. by destruct (exists_ τ p).
          -- eapply remerging_exists; [done|].
             eapply merge_caches_copy_done; [done..|by rewrite Hf|done|done].
    - unfold stat. by destruct (exists_ τ p). }
  destruct (is_file σ p) eqn:Hf; [|apply Hskip; by left].
  destruct (decide (suffix p = ".lock")) as [Hl|Hl]; [apply Hskip; auto|].
  destruct (decide (suffix p = ".json")) as [Hj|Hj]; [|apply Hskip; auto].
  clear Hskip.
  destruct (merge_caches_json_done σ σ' c p) as ((data & Hload) & Hfile & Hparent);
    [done..|by rewrite Hf|done|].
  set (t := out ++ tail p) in *.
  exists (<[t := File (json_dump data)]> τ).
  assert (Hpt : p ≠ t).
  { intros E. apply (apart_prefix c p (tail p)); [done|apply Hp|].
    fold t. by rewrite <-E. }
  split.
  - unfold process_entry, relative_path. rewrite (is_file_agree σ τ c p), Hf by done.
    simpl. rewrite Hj. simpl.
    rewrite (merge_json_data_again τ _ _ data).
    + simpl. unfold stat. rewrite exists_insert_ne by done.
      by destruct (exists_ τ p).
    + rewrite (load_all_agree σ τ c p); [done..|apply Hp].
    + by eapply remerging_exists.
    + by eapply remerging_is_file.
  - split.
    + intros c' q Hc' Hq. rewrite lookup_insert_ne; [by apply (Hag c')|].
      intros <-. by apply (apart_prefix c' _ (tail p) Hc' Hq).
    + intros q. destruct (decide (q = t)) as [->|Hne].
      * right. split_and!; [|done|].
        -- unfold is_file. subst t. rewrite (output_lookup _ c) by done.
           by rewrite lookup_insert_eq.
        -- exists c, p. split_and!; [done..|by rewrite Hf|done|done].
      * rewrite lookup_insert_ne by done.
        destruct (Hτ q) as [?|(Hfq & ? & ?)]; [by left|right].
        split_and!; [|done..].
        unfold is_file in *. destruct q as [|y q]; [done|].
        by rewrite node_at_lookup, lookup_insert_ne in * by done.
Qed.

Lemma merge_caches_again (σ σ' : FS) :
  merge_caches rglob caches out σ = Ok σ' →
  ∃ σ'', merge_caches rglob caches out σ' = Ok σ'' ∧ remerging caches out σ σ' σ''.
Proof.
  intros Hrun. unfold merge_caches.
  pose proof (merge_caches_out_exists σ σ' Hrun) as Hout.
  destruct (exists_ σ' out); [|done]. simpl.
  apply (for_each_progress (remerging caches out σ σ')).
  { split; [by apply merge_caches_agree|by left]. }
  intros c τ Hc Hτ. unfold process_directory, stat.
  assert (Hex : exists_ τ c).
  { unfold exists_. rewrite (node_at_agree σ τ c c); [|apply Hτ|done..].
    by eapply merge_caches_source_exists. }
  destruct (exists_ τ c); [|done]. simpl.
  apply (for_each_progress (remerging caches out σ σ')); [done|].
  intros p τ1 Hp Hτ1. apply process_entry_again; [done..| |done].
  apply (below_agree σ τ); [apply Hτ|done|]. by apply Hrglob.
Qed.

Lemma last_such {A} (P : A → Prop) `{!∀ x, Decision (P x)} (l : list A) :
  Exists P l → ∃ l1 x l2, l = l1 ++ x :: l2 ∧ P x ∧ Forall (λ y, ¬ P y) l2.
Proof.
  induction l as [|x l IH]; intros Hex; [by apply Exists_nil in Hex|].
  destruct (decide (Exists P l)) as [Hl|Hl].
  - destruct (IH Hl) as (l1 & y & l2 & -> & Hy & Hl2).
    by exists (x :: l1), y, l2.
  - apply Exists_cons in Hex as [Hx|?]; [|done].
    exists [], x, l. split_and!; [done..|]. by apply (not_Exists_Forall _).
Qed.

Lemma holds_json_iff (σ : FS) (rel c : path) :
  c ∈ caches →
  holds_json σ rel c ↔
  ∃ p, below σ c p ∧ is_file σ p ∧ suffix p = ".json" ∧ tail p = rel.
Proof.
  intros Hc. split.
  - destruct c as [|h ct]; [done|]. intros (? & ? & ?). by exists (h :: rel).
  - intros (p & Hp & Hf & Hj & <-).
    destruct (below_shape σ c p) as (h & ct & r & -> & -> & _); [done..|].
    by simpl.
Qed.

Lemma json_target_last (σ : FS) (q : path) :
  json_target caches out σ q →
  ∃ l1 c l2 p, caches = l1 ++ c :: l2 ∧
    below σ c p ∧ is_file σ p ∧ suffix p = ".json" ∧ q = out ++ tail p ∧
    ∀ c' p', c' ∈ l2 → below σ c' p' → is_file σ p' → suffix p' = ".json" →
             tail p' ≠ tail p.
Proof.
  intros (c0 & p0 & Hc0 & Hp0 & Hf0 & Hj0 & ->).
  destruct (last_such (holds_json σ (tail p0)) caches) as (l1 & c & l2 & Hsplit & Hc & Hl2).
  { apply Exists_exists. exists c0. split; [done|].
    apply holds_json_iff; [done|]. by exists p0. }
  assert (Hcin : c ∈ caches).
  { rewrite Hsplit. apply elem_of_app. right. by left. }
  apply holds_json_iff in Hc as (p & Hp & Hf & Hj & Htl); [|done].
  exists l1, c, l2, p. split_and!; [done..|by rewrite Htl|].
  intros c' p' Hc' Hp' Hf' Hj' E. rewrite Forall_forall in Hl2.
  apply (Hl2 c' Hc'). apply holds_json_iff.
  - rewrite Hsplit. apply elem_of_app. right. by right.
  - exists p'. split_and!; [done..|]. by rewrite E.
Qed.

(** Merging again over sources that the merge left alone gives the
    merged tree again. *)
Lemma merge_caches_twice (σ σ' : FS) :
  merge_caches rglob caches out σ = Ok σ' →
  merge_caches rglob caches out σ' = Ok σ'.
Proof.
  intros Hrun.
  destruct (merge_caches_again σ σ' Hrun) as (σ'' & Hrun' & Hag'' & Hq).
  rewrite Hrun'. f_equal. apply map_eq. intros q.
  destruct (Hq q) as [?|(_ & _ & Htarget)]; [done|].
  apply json_target_last in Htarget
    as (l1 & c & l2 & p & Hsplit & Hp & Hf & Hj & -> & Hlast).
  assert (Hc : c ∈ caches).
  { rewrite Hsplit. apply elem_of_app. right. by left. }
  pose proof (merge_caches_agree σ σ' Hrun) as Hag.
  destruct (json_last_writer σ σ' l1 l2 c p) as (data & Hload & ->); [done..|].
  destruct (json_last_writer σ' σ'' l1 l2 c p) as (data' & Hload' & ->); [done| | |done| |done|].
  - by apply (below_agree σ σ').
  - by rewrite (is_file_agree σ σ' c p).
  - intros c' p' Hc' Hp' Hf' Hj'.
    assert (Hc'in : c' ∈ caches).
    { rewrite Hsplit. apply elem_of_app. right. by right. }
    apply (below_agree σ σ') in Hp'; [|done..].
    rewrite (is_file_agree σ σ' c' p') in Hf' by done.
    by apply (Hlast c' p').
  - rewrite (load_all_agree σ σ' c p) in Hload'; [|done..|apply Hp].
    congruence.
Qed.

End Apart.

(** Every entry of a source that is not a lock has its place in the
    output, at the path that [process_directory] computes for it. *)
Lemma merge_output_complete (rglob : FS → path → list path)
    (caches : list path) (out : path) (σ σ' : FS) (c p : path) :
  lists_below rglob →
  apart caches out →
  merge_caches rglob caches out σ = Ok σ' →
  c ∈ caches → below σ c p → is_file σ p → suffix p ≠ ".lock" →
  exists_ σ' (out ++ tail p).
Proof.
  intros Hrglob Hapart Hrun Hc Hp Hf Hl.
  destruct (decide (suffix p = ".json")) as [Hj|Hj].
  - apply is_file_exists.
    by apply (merge_caches_json_done caches out Hapart rglob Hrglob σ σ' c p).
  - by apply (merge_caches_copy_done caches out Hapart rglob Hrglob σ σ' c p).
Qed.

(** ** A traversal function *)

Lemma rglob_listing_lists_below : lists_below rglob_listing.
Proof.
  intros σ d p. unfold rglob_listing. rewrite list_elem_of_filter.
  split; [by intros [? _]|]. intros Hb. split; [done|].
  destruct Hb as ([k ->] & Hne & Hex & _).
  unfold exists_ in Hex. rewrite node_at_lookup in Hex.
  - destruct (σ !! (d ++ k)) as [n|] eqn:E; [|done].
    apply list_elem_of_fmap. exists (d ++ k, n). split; [done|].
    by apply elem_of_map_to_list.
  - intros E. apply app_eq_nil in E as [-> ->]. by rewrite app_nil_r in Hne.
Qed.

(** ** Sources named by one component *)

Lemma suffix_app (a rel : path) : rel ≠ [] → suffix (a ++ rel) = suffix rel.
Proof. intros Hrel. unfold suffix. by rewrite name_app. Qed.

Lemma suffix_nonempty (rel : path) : suffix rel ≠ EmptyString → rel ≠ [].
Proof. by intros H ->. Qed.

Lemma single_component (caches : list path) (c : path) :
  Forall (λ c, length c = 1) caches → c ∈ caches → ∃ n, c = [n].
Proof.
  rewrite Forall_forall. intros H Hc. specialize (H c Hc).
  destruct c as [|n [|]]; try done. by exists n.
Qed.

(** C1, as the code has it.  For sources named by one path component
    and apart from the output directory, and a relative path with the
    structured suffix: when the merge completes, the output file at that
    path holds the mapping obtained by loading first the file of the last
    source, in source order, that holds one at that path, and then the
    files of the other sources that hold one, in source order, each
    applied over what was loaded before. *)
Theorem merge_structured_last_source_first (rglob : FS → path → list path)
    (caches : list path) (out : path) (σ σ' : FS) (l1 l2 : list path) (c rel : path) :
  lists_below rglob →
  apart caches out →
  Forall (λ c, length c = 1) caches →
  caches = l1 ++ c :: l2 →
  suffix rel = ".json" →
  holds σ c rel →
  (∀ c', c' ∈ l2 → ¬ holds σ c' rel) →
  merge_caches rglob caches out σ = Ok σ' →
  ∃ data,
    load_all σ ((c ++ rel) ::
                corresponding_paths σ (filter (λ c', c' ≠ c) caches) rel) = Ok data ∧
    σ' !! (out ++ rel) = Some (File (json_dump data)).
Proof.
  intros Hrglob Hapart Hone Hsplit Hj [Hb Hf] Hlast Hrun.
  assert (Hrel : rel ≠ []) by (apply suffix_nonempty; by rewrite Hj).
  assert (Hc : c ∈ caches).
  { rewrite Hsplit. apply elem_of_app. right. by left. }
  destruct (single_component caches c Hone Hc) as [n ->].
  destruct (json_last_writer caches out Hapart rglob Hrglob σ σ' l1 l2 [n] ([n] ++ rel))
    as (data & Hload & Hout); try done.
  - by rewrite suffix_app.
  - intros c' p' Hc' Hp' Hf' Hj' E.
    assert (Hc'in : c' ∈ caches).
    { rewrite Hsplit. apply elem_of_app. right. by right. }
    destruct (single_component caches c' Hone Hc'in) as [n' ->].
    destruct Hp' as ([r' ->] & Hp'). simpl in E. subst r'.
    apply (Hlast [n'] Hc'). split; [|done]. split; [by exists rel|done].
  - by exists data.
Qed.

(** An entry of the output whose suffix is not the structured one is
    left as it was. *)
Lemma output_entry_kept (rglob : FS → path → list path)
    (caches : list path) (out : path) (σ σ' : FS) (rel : path) :
  rel ≠ [] → suffix rel ≠ ".json" →
  is_Some (σ !! (out ++ rel)) →
  merge_caches rglob caches out σ = Ok σ' →
  σ' !! (out ++ rel) = σ !! (out ++ rel).
Proof.
  intros Hrel Hj Hsome Hrun.
  eapply (merge_caches_inv rglob (λ τ, τ !! (out ++ rel) = σ !! (out ++ rel)));
    [exact Hrun| |].
  - intros σ0 [[-> _]|[_ Hmk]]; [done|].
    destruct (Hmk (out ++ rel)) as [?|(Hnone & _)]; [done|].
    rewrite Hnone in Hsome. by destruct Hsome.
  - intros c p τ τ' _ Hτ Hv.
    assert (Hτsome : is_Some (τ !! (out ++ rel))) by (by rewrite Hτ).
    destruct Hv as [-> _|data _ Hjp _ Hw|v _ _ Hnex _ Hw]; [done| |].
    + rewrite (written_kept τ τ' _ _ _ Hw); [done| |done].
      intros E. apply app_inv_head in E. subst rel.
      rewrite <-(suffix_output out p), suffix_app in Hjp by done. done.
    + rewrite (written_kept τ τ' _ _ _ Hw); [done| |done].
      intros E. rewrite E in Hτsome. destruct Hnex. unfold exists_.
      destruct (out ++ tail p) as [|y t]; [done|].
      rewrite node_at_lookup by done. by destruct Hτsome as [n ->].
Qed.

(** C6, as the code has it.  Opaque first-writer-wins.  For sources
    named by one path component and apart from the output directory, a
    relative path whose suffix is neither the structured nor the lock
    suffix, and the first source that has anything at that path, which
    is a file: after a merge that completes, an output that had nothing
    at that path holds the bytes of that source, the later sources
    being ignored; an output that had an entry at that path holds the
    entry it had, whatever the sources hold. *)
Theorem merge_opaque_first_source (rglob : FS → path → list path)
    (caches : list path) (out : path) (σ σ' : FS) (l1 l2 : list path) (c rel : path)
    (b : content) :
  lists_below rglob →
  apart caches out →
  Forall (λ c, length c = 1) caches →
  caches = l1 ++ c :: l2 →
  rel ≠ [] → suffix rel ≠ ".json" → suffix rel ≠ ".lock" →
  below σ c (c ++ rel) → σ !! (c ++ rel) = Some (File b) →
  (∀ c', c' ∈ l1 → ¬ exists_ σ (c' ++ rel)) →
  merge_caches rglob caches out σ = Ok σ' →
  (σ !! (out ++ rel) = None → σ' !! (out ++ rel) = Some (File b)) ∧
  (is_Some (σ !! (out ++ rel)) → σ' !! (out ++ rel) = σ !! (out ++ rel)).
Proof.
  intros Hrglob Hapart Hone Hsplit Hrel Hj Hl Hb Hfile Hfirst Hrun.
  split; [|intros Hsome; by apply (output_entry_kept rglob caches)].
  intros Hfresh.
  assert (Hc : c ∈ caches).
  { rewrite Hsplit. apply elem_of_app. right. by left. }
  destruct (single_component caches c Hone Hc) as [n ->].
  apply (opaque_first_writer caches out Hapart rglob Hrglob σ σ' l1 l2 [n] ([n] ++ rel) b);
    try done.
  - by rewrite suffix_app.
  - by rewrite suffix_app.
  - intros c' p' Hc' Hp' Hf' _ Hpre.
    assert (Hc'in : c' ∈ caches).
    { rewrite Hsplit. apply elem_of_app. by left. }
    destruct (single_component caches c' Hone Hc'in) as [n' ->].
    apply (Hfirst [n'] Hc').
    pose proof Hp' as ([r' ->] & _). simpl in Hpre.
    destruct (decide (r' = rel)) as [->|Hne]; [by apply is_file_exists|].
    apply is_dir_exists. apply (below_is_dir σ [n'] ([n'] ++ r') ([n'] ++ rel)); [done| | |].
    + by apply prefix_app_r.
    + by apply prefix_app.
    + intros E. by apply app_inv_head in E.
Qed.

(** C4.  Idempotence.  For sources apart from the output directory,
    which the merge therefore leaves as they are: after a merge that
    completes, merging the same sources into the same output directory
    again completes and leaves the whole tree as the first merge left
    it, node for node. *)
Theorem merge_idempotent (rglob : FS → path → list path)
    (caches : list path) (out : path) (σ σ' : FS) :
  lists_below rglob →
  apart caches out →
  merge_caches rglob caches out σ = Ok σ' →
  merge_caches rglob caches out σ' = Ok σ'.
Proof. intros Hrglob Hapart. by apply merge_caches_twice. Qed.

(** ** Two sources *)

Lemma merged_Ok (caches : list path) (σ : FS) :
  succeeded (merge_caches rglob_listing caches ["out"] σ) = true →
  merge_caches rglob_listing caches ["out"] σ = Ok (merged caches σ).
Proof. unfold merged. by destruct (merge_caches rglob_listing caches ["out"] σ). Qed.

Lemma merge_AB_Ok :
  merge_caches rglob_listing [["A"]; ["B"]] ["out"] two_sources
  = Ok (merged [["A"]; ["B"]] two_sources).
Proof. apply merged_Ok. vm_compute. reflexivity. Qed.

Lemma merge_BA_Ok :
  merge_caches rglob_listing [["B"]; ["A"]] ["out"] two_sources
  = Ok (merged [["B"]; ["A"]] two_sources).
Proof. apply merged_Ok. vm_compute. reflexivity. Qed.

(** ** [merge_json_data] on its own *)

Lemma insert_by_key_HdRel (a kv : string * json) (l : list (string * json)) :
  key_le a kv → HdRel key_le a l → HdRel key_le a (insert_by_key kv l).
Proof.
  intros Ha Hl. destruct l as [|kv' l]; simpl; [by constructor|].
  destruct (String.leb kv.1 kv'.1); constructor; [done|].
  by inversion Hl.
Qed.

Lemma insert_by_key_Sorted (kv : string * json) (l : list (string * json)) :
  Sorted key_le l → Sorted key_le (insert_by_key kv l).
Proof.
  induction l as [|kv' l IH]; simpl; intros Hs.
  - by repeat constructor.
  - inversion Hs as [|? ? Hl Hhd]; subst.
    destruct (String.leb kv.1 kv'.1) eqn:E.
    + constructor; [done|]. by constructor.
    + constructor; [by apply IH|].
      apply insert_by_key_HdRel; [|done].
      unfold key_le. destruct (String.leb_total kv.1 kv'.1); congruence.
Qed.

Lemma sort_by_key_Sorted (l : list (string * json)) : Sorted key_le (sort_by_key l).
Proof.
  induction l as [|kv l IH]; simpl; [constructor|]. by apply insert_by_key_Sorted.
Qed.

Lemma insert_by_key_Permutation (kv : string * json) (l : list (string * json)) :
  insert_by_key kv l ≡ₚ kv :: l.
Proof.
  induction l as [|kv' l IH]; simpl; [done|].
  destruct (String.leb kv.1 kv'.1); [done|].
  rewrite IH. apply Permutation_swap.
Qed.

Lemma sort_by_key_Permutation (l : list (string * json)) : sort_by_key l ≡ₚ l.
Proof.
  induction l as [|kv l IH]; simpl; [done|].
  by rewrite insert_by_key_Permutation, IH.
Qed.

Lemma json_nested_ind (P : json → Prop) :
  P JNull → (∀ b, P (JBool b)) → (∀ n, P (JInt n)) → (∀ s, P (JStr s)) →
  (∀ l, Forall P l → P (JArr l)) →
  (∀ items, Forall (λ kv, P (snd kv)) items → P (JObj items)) →
  ∀ j, P j.
Proof.
  intros HNull HBool HInt HStr HArr HObj. fix IH 1.
  intros [|b|n|s|l|items]; [done..| |].
  - apply HArr. induction l as [|x l IHl]; constructor; [apply IH|apply IHl].
  - apply HObj. induction items as [|kv items IHl]; constructor; [apply IH|apply IHl].
Qed.

Lemma foldr_and_Forall {A} (P : A → Prop) (l : list A) :
  foldr (λ x acc, P x ∧ acc) True l ↔ Forall P l.
Proof.
  induction l as [|x l IH]; simpl; [by split|].
  rewrite Forall_cons. by rewrite IH.
Qed.

Lemma insert_by_key_Forall (P : string * json → Prop) (kv : string * json)
    (l : list (string * json)) :
  Forall P (insert_by_key kv l) ↔ P kv ∧ Forall P l.
Proof.
  induction l as [|kv' l IH]; simpl.
  - rewrite Forall_singleton, Forall_nil. tauto.
  - destruct (String.leb kv.1 kv'.1); [apply Forall_cons|].
    rewrite !Forall_cons, IH. tauto.
Qed.

Lemma sort_by_key_Forall (P : string * json → Prop) (l : list (string * json)) :
  Forall P (sort_by_key l) ↔ Forall P l.
Proof.
  induction l as [|kv l IH]; simpl; [done|].
  by rewrite insert_by_key_Forall, Forall_cons, IH.
Qed.

(** What [sort_keys=True] gives has its keys in order at every level. *)
Lemma sort_keys_sorted (j : json) : keys_sorted (sort_keys j).
Proof.
  induction j as [| | | |l IH|items IH] using json_nested_ind; simpl; try done.
  - apply foldr_and_Forall. by apply Forall_fmap.
  - split; [apply sort_by_key_Sorted|].
    apply (foldr_and_Forall (λ kv, keys_sorted kv.2)), sort_by_key_Forall.
    by apply Forall_fmap.
Qed.

Lemma load_all_missing (σ : FS) (paths : list path) :
  (∀ p, p ∈ paths → ¬ exists_ σ p) → load_all σ paths = Ok [].
Proof.
  unfold load_all. generalize (@nil (string * json)).
  induction paths as [|p paths IH]; intros data Hnone; simpl; [done|].
  destruct (exists_ σ p) eqn:E.
  - destruct (Hnone p); [by left|by rewrite E].
  - simpl. apply IH. intros q Hq. apply Hnone. by right.
Qed.

Lemma parent_snoc (l : path) (x : string) : parent (l ++ [x]) = l.
Proof. unfold parent. apply removelast_last. Qed.

Lemma mkdir_rev_progress (rp : list string) : ∀ σ,
  (∀ q, q `prefix_of` rev rp → ¬ is_file σ q) →
  ∃ σ', mkdir_rev σ rp = Ok σ'.
Proof.
  induction rp as [|x rp IH]; intros σ Hnf; cbn [mkdir_rev].
  - simpl. by exists σ.
  - set (p := rev (x :: rp)) in *.
    assert (Hp : p = rev rp ++ [x]) by done.
    assert (Hpne : p ≠ []) by (rewrite Hp; by destruct (rev rp)).
    assert (Hpar : parent p = rev rp) by (rewrite Hp; apply parent_snoc).
    assert (Hnfp : is_file σ p = false).
    { specialize (Hnf p). destruct (is_file σ p); [|done]. by destruct Hnf. }
    assert (Hnfpar : is_file σ (rev rp) = false).
    { specialize (Hnf (rev rp)). destruct (is_file σ (rev rp)); [|done].
      destruct Hnf; [|done]. rewrite Hp. by apply prefix_app_r. }
    unfold os_mkdir at 1. unfold is_file, is_dir in *.
    destruct (node_at σ p) as [[]|] eqn:Ep; [done|by exists σ|].
    rewrite Hpar.
    destruct (node_at σ (rev rp)) as [[]|] eqn:Epar; [done|by eexists|].
    destruct (IH σ) as (σ1 & E1).
    { intros q Hq. apply Hnf. rewrite Hp. by apply prefix_app_r. }
    rewrite E1. simpl. apply mkdir_rev_Ok in E1 as [Hd Hq].
    unfold mkdir_exist_ok, os_mkdir. rewrite Hpar. unfold is_dir in Hd.
    rewrite node_at_lookup in * by done.
    destruct (Hq p) as [->|(_ & _ & Hpre)].
    + rewrite Ep. destruct (node_at σ1 (rev rp)) as [[]|]; [done|by eexists|done].
    + apply prefix_length in Hpre. rewrite Hp, length_app in Hpre. simpl in Hpre. lia.
Qed.

Lemma mkdir_parents_progress (σ : FS) (p : path) :
  (∀ q, q `prefix_of` p → ¬ is_file σ q) →
  ∃ σ', mkdir_parents σ p = Ok σ'.
Proof.
  intros H. apply mkdir_rev_progress. by rewrite rev_involutive.
Qed.


(** ** [head_passes_tests] *)

Lemma state_name_inj (s1 s2 : TEST_STATE) : state_name s1 = state_name s2 → s1 = s2.
Proof. by destruct s1, s2. Qed.

(** C3, as the code has it.  A task whose slug contains no separator
    is recorded as ["Wrong format"]; otherwise a task whose hash does
    not have 40 characters is recorded as ["No valid head hash"]; in
    both cases the world is left as it was, so that no call is made on
    [Repository]. *)
Theorem head_validation_rejects (R : Runner) (T : Z) (info : Series) (cache : path)
    (w : World) :
  (has_char "/" (repository info) = false →
   head_passes_tests R T (info, cache) w
   = (w, Ok (set_head_test_result info "Wrong format"))) ∧
  (has_char "/" (repository info) = true →
   String.length (head_hash info) ≠ 40 →
   head_passes_tests R T (info, cache) w
   = (w, Ok (set_head_test_result info "No valid head hash"))).
Proof.
  split.
  - intros Hs. unfold head_passes_tests. by rewrite Hs.
  - intros Hs Hh. unfold head_passes_tests. rewrite Hs. simpl.
    apply Nat.eqb_neq in Hh. by rewrite Hh.
Qed.

(** C2, as the code has it.  For a task that passes validation: an
    exception raised by the constructor of [Repository] is caught and
    recorded as [Git_checkout_failed], with no fingerprint; an exception
    raised by [checkout_and_test] or by [clone_repo], and the failure of
    the assertion that the working directory exists, leave the function
    as they are. *)
Theorem head_exceptions (R : Runner) (T : Z) (info : Series) (cache : path) (w : World) :
  has_char "/" (repository info) = true →
  String.length (head_hash info) = 40 →
  let slug := repository info in
  let workdir_id := slug +:+ "/head-" +:+ slug in
  let w0 := log_call (Call_Repository slug cache workdir_id true) w in
  (∀ w1 e,
     Repository R slug cache workdir_id true w0 = (w1, Raise e) →
     head_passes_tests R T (info, cache) w
     = (w1, Ok (set_head_tree_fingerprint
                  (set_head_test_result info "Git_checkout_failed") None))) ∧
  (∀ w1 repo w2 e,
     Repository R slug cache workdir_id true w0 = (w1, Ok repo) →
     checkout_and_test R repo (head_hash info) T 3
       (log_call (Call_checkout_and_test (head_hash info) T 3) w1) = (w2, Raise e) →
     head_passes_tests R T (info, cache) w = (w2, Raise e)) ∧
  (∀ w1 repo w2 log fingerprint w3 e,
     Repository R slug cache workdir_id true w0 = (w1, Ok repo) →
     checkout_and_test R repo (head_hash info) T 3
       (log_call (Call_checkout_and_test (head_hash info) T 3) w1)
     = (w2, Ok (Tests_passed, log, fingerprint)) →
     clone_repo R repo (log_call Call_clone_repo w2) = (w3, Raise e) →
     head_passes_tests R T (info, cache) w = (w3, Raise e)) ∧
  (∀ w1 repo w2 log fingerprint w3,
     Repository R slug cache workdir_id true w0 = (w1, Ok repo) →
     checkout_and_test R repo (head_hash info) T 3
       (log_call (Call_checkout_and_test (head_hash info) T 3) w1)
     = (w2, Ok (Tests_passed, log, fingerprint)) →
     clone_repo R repo (log_call Call_clone_repo w2) = (w3, Ok ()) →
     exists_ (fs w3) (repo_path R repo) = false →
     head_passes_tests R T (info, cache) w = (w3, Raise AssertionError)).
Proof.
  intros Hs Hh slug workdir_id w0.
  unfold head_passes_tests. rewrite Hs, Hh. simpl.
  unfold mbind, io_bind, catch, logged. fold slug. fold workdir_id. fold w0.
  split_and!.
  - intros w1 e ->. done.
  - intros w1 repo w2 e -> ->. done.
  - intros w1 repo w2 lg fp w3 e -> ->. simpl. by intros ->.
  - intros w1 repo w2 lg fp w3 -> ->. simpl. intros ->. unfold path_exists. by intros ->.
Qed.

Lemma rmtree_gone (w : World) (p : path) :
  p ≠ [] →
  (∀ r, r ∈ undeletable w → ¬ p `prefix_of` r) →
  is_dir (fs (rmtree_ignore_errors p w).1) p = false.
Proof.
  intros Hp Hfree. unfold rmtree_ignore_errors.
  destruct (is_dir (fs w) p) eqn:Hd; simpl; [|done].
  unfold is_dir. rewrite node_at_lookup by done.
  rewrite map_lookup_filter. destruct (fs w !! p) as [n|]; simpl; [|done].
  rewrite option_guard_False; [done|]. simpl.
  intros [Hnp|(r & Hr & Hpr & _)].
  - by apply Hnp.
  - by apply (Hfree r).
Qed.

Lemma rmtree_absent (w : World) (p : path) :
  p ≠ [] →
  is_file (fs w) p = false →
  (∀ r, r ∈ undeletable w → ¬ p `prefix_of` r) →
  exists_ (fs (rmtree_ignore_errors p w).1) p = false.
Proof.
  intros Hp Hnf Hfree. pose proof (rmtree_gone w p Hp Hfree) as Hgone.
  unfold rmtree_ignore_errors in *.
  destruct (is_dir (fs w) p) eqn:Hd; simpl in *.
  - unfold exists_, is_dir in *. rewrite node_at_lookup in * by done.
    rewrite map_lookup_filter in *. destruct (fs w !! p) as [n|]; simpl in *; [|done].
    rewrite option_guard_False; [done|]. simpl.
    intros [Hnp|(r & Hr & Hpr & _)]; [by apply Hnp|by apply (Hfree r)].
  - unfold exists_, is_file, is_dir in *. by destruct (node_at (fs w) p) as [[]|].
Qed.

Lemma rmtree_file (w : World) (p : path) :
  is_file (fs w) p → (rmtree_ignore_errors p w).1 = w.
Proof.
  intros Hf. unfold rmtree_ignore_errors.
  destruct (is_dir (fs w) p) eqn:Hd; [|done].
  destruct (file_not_dir (fs w) p); [done|by rewrite Hd].
Qed.

(** C8, as the code has it.  For a task that passes validation.  When
    the constructor of [Repository] raises, the function returns with
    the outcome [Git_checkout_failed] and the world as the constructor
    left it: no cleanup is attempted.  When the repository is obtained
    and [checkout_and_test] reports a state other than [Tests_passed],
    the function returns with the name of that state and the world that
    [shutil.rmtree(repo_path, ignore_errors=True)] leaves: a regular
    file at the path stays, the deletion failing silently; otherwise the
    path does not exist afterwards, provided that it is not the current
    directory and that no entry at or below it refuses deletion.  When
    the state is [Tests_passed] and the function returns, the path
    exists; that it is a directory, or holds anything, is not looked
    at. *)
Theorem head_cleanup (R : Runner) (T : Z) (info : Series) (cache : path) (w : World) :
  has_char "/" (repository info) = true →
  String.length (head_hash info) = 40 →
  let slug := repository info in
  let workdir_id := slug +:+ "/head-" +:+ slug in
  let w0 := log_call (Call_Repository slug cache workdir_id true) w in
  (∀ w1 e,
     Repository R slug cache workdir_id true w0 = (w1, Raise e) →
     ∃ row,
       head_passes_tests R T (info, cache) w = (w1, Ok row) ∧
       head_test_result row = Some (state_name Git_checkout_failed)) ∧
  (∀ w1 repo w2 state log fingerprint,
     Repository R slug cache workdir_id true w0 = (w1, Ok repo) →
     checkout_and_test R repo (head_hash info) T 3
       (log_call (Call_checkout_and_test (head_hash info) T 3) w1)
     = (w2, Ok (state, log, fingerprint)) →
     (state ≠ Tests_passed →
      let w' := (rmtree_ignore_errors (repo_path R repo) w2).1 in
      ∃ row,
        head_passes_tests R T (info, cache) w = (w', Ok row) ∧
        head_test_result row = Some (state_name state) ∧
        (is_file (fs w2) (repo_path R repo) → w' = w2) ∧
        (repo_path R repo ≠ [] →
         is_file (fs w2) (repo_path R repo) = false →
         (∀ r, r ∈ undeletable w2 → ¬ repo_path R repo `prefix_of` r) →
         exists_ (fs w') (repo_path R repo) = false)) ∧
     (state = Tests_passed →
      ∀ w' row,
        head_passes_tests R T (info, cache) w = (w', Ok row) →
        head_test_result row = Some (state_name Tests_passed) ∧
        exists_ (fs w') (repo_path R repo) = true)).
Proof.
  intros Hs Hh slug workdir_id w0.
  unfold head_passes_tests. rewrite Hs, Hh. simpl.
  unfold mbind, io_bind, catch, logged. fold slug. fold workdir_id. fold w0.
  split.
  - intros w1 e ->. by eexists.
  - intros w1 repo w2 state lg fp -> ->. simpl. split.
    + intros Hne. destruct (decide (state = Tests_passed)) as [?|_]; [done|].
      pose proof (rmtree_file w2 (repo_path R repo)) as Hfile.
      pose proof (rmtree_absent w2 (repo_path R repo)) as Habsent.
      destruct (rmtree_ignore_errors (repo_path R repo) w2) as [w3 [[]|e]] eqn:Hrm.
      * simpl in *. by eexists.
      * unfold rmtree_ignore_errors in Hrm. by destruct (is_dir _ _).
    + intros -> w' row. simpl.
      destruct (clone_repo R repo (log_call Call_clone_repo w2)) as [w3 [[]|e]]; [|done].
      unfold path_exists, assert_.
      destruct (exists_ (fs w3) (repo_path R repo)) eqn:Hex; [|done].
      simpl. by intros [= <- <-].
Qed.

Lemma select_rows_filter (df : list Series) (v : option string) :
  select_rows df (map (λ cell, bool_decide (cell = v)) (map head_test_result df))
  = filter (λ row, head_test_result row = v) df.
Proof.
  induction df as [|row df IH]; [done|]. cbn [map select_rows].
  rewrite filter_cons, IH.
  destruct (decide (head_test_result row = v)) as [E|E].
  - by rewrite bool_decide_eq_true_2.
  - by rewrite bool_decide_eq_false_2.
Qed.

Lemma column_found (df : list Series) :
  existsb (λ row, bool_decide (is_Some (head_test_result row))) df = true ↔
  Exists (λ row, is_Some (head_test_result row)) df.
Proof.
  induction df as [|row df IH]; simpl.
  - split; [done|]. by intros ?%Exists_nil.
  - rewrite Exists_cons, orb_true_iff, IH, bool_decide_eq_true. done.
Qed.


(** ** The properties at work *)

Lemma merge_nested_Ok :
  merge_caches rglob_listing [["data"; "A"]; ["data"; "B"]] ["out"] nested_roots
  = Ok (merged [["data"; "A"]; ["data"; "B"]] nested_roots).
Proof. apply merged_Ok. vm_compute. reflexivity. Qed.

Lemma apart_AB_out : apart [["A"]; ["B"]] ["out"].
Proof. apply (bool_decide_unpack _). vm_compute. exact I. Qed.

Lemma apart_BA_out : apart [["B"]; ["A"]] ["out"].
Proof. apply (bool_decide_unpack _). vm_compute. exact I. Qed.

(** The claim of C1 fails on the code: merging [A] and [B] in the order
    [[A, B]] gives [k1] the value of [A]. *)
Lemma structured_merge_first_source_wins :
  merge_caches rglob_listing [["A"]; ["B"]] ["out"] two_sources
  = Ok (merged [["A"]; ["B"]] two_sources) ∧
  merged [["A"]; ["B"]] two_sources !! ["out"; "x.json"]
  = Some (File (Mapping [("k1", JStr "v1"); ("k2", JStr "v3")])) ∧
  merged [["A"]; ["B"]] two_sources !! ["out"; "x.json"]
  ≠ Some (File (Mapping [("k1", JStr "v2"); ("k2", JStr "v3")])).
Proof.
  split_and!; [apply merge_AB_Ok|by vm_compute|].
  vm_compute. discriminate.
Qed.

Lemma merge_structured_witness :
  ∃ data,
    load_all two_sources
      ((["B"] ++ ["x.json"]) ::
       corresponding_paths two_sources (filter (λ c', c' ≠ ["B"]) [["A"]; ["B"]])
         ["x.json"]) = Ok data ∧
    merged [["A"]; ["B"]] two_sources !! (["out"] ++ ["x.json"])
    = Some (File (json_dump data)).
Proof.
  apply (merge_structured_last_source_first rglob_listing [["A"]; ["B"]] ["out"]
           two_sources _ [["A"]] [] ["B"] ["x.json"]).
  - apply rglob_listing_lists_below.
  - apply apart_AB_out.
  - repeat constructor.
  - reflexivity.
  - reflexivity.
  - split; [apply (bool_decide_unpack _)|]; vm_compute; exact I.
  - intros c' Hc'. by apply elem_of_nil in Hc'.
  - apply merge_AB_Ok.
Defined.

Lemma merge_idempotent_witness :
  merge_caches rglob_listing [["A"]; ["B"]] ["out"] (merged [["A"]; ["B"]] two_sources)
  = Ok (merged [["A"]; ["B"]] two_sources).
Proof.
  apply (merge_idempotent rglob_listing [["A"]; ["B"]] ["out"] two_sources).
  - apply rglob_listing_lists_below.
  - apply apart_AB_out.
  - apply merge_AB_Ok.
Defined.

Lemma merge_creates_no_lock_file_witness :
  is_file two_sources ["A"; "d"; "blob.lock"].
Proof.
  apply (merge_creates_no_lock_file rglob_listing [["A"]; ["B"]] ["out"] two_sources
           (merged [["A"]; ["B"]] two_sources)).
  - apply merge_AB_Ok.
  - reflexivity.
  - vm_compute. exact I.
Defined.

(** The lock of source [A] has no counterpart in the output. *)
Example merged_has_no_lock :
  merged [["A"]; ["B"]] two_sources !! ["out"; "d"; "blob.lock"] = None.
Proof. by vm_compute. Qed.

(** The claim of C6 fails on the code: an output that already holds a
    file at the path keeps its bytes, and those of the first source are
    not copied. *)
Lemma opaque_output_keeps_old_bytes :
  merge_caches rglob_listing [["A"]; ["B"]] ["out"] two_sources_old_output
  = Ok (merged [["A"]; ["B"]] two_sources_old_output) ∧
  two_sources_old_output !! ["A"; "d"; "blob.bin"] = Some (File (Bytes "bytes of A")) ∧
  merged [["A"]; ["B"]] two_sources_old_output !! ["out"; "d"; "blob.bin"]
  = Some (File (Bytes "old bytes")) ∧
  merged [["A"]; ["B"]] two_sources_old_output !! ["out"; "d"; "blob.bin"]
  ≠ Some (File (Bytes "bytes of A")).
Proof.
  split_and!; [apply merged_Ok; vm_compute; reflexivity|by vm_compute..|].
  vm_compute. discriminate.
Qed.

Lemma merge_opaque_first_source_witness :
  merged [["A"]; ["B"]] two_sources !! (["out"] ++ ["d"; "blob.bin"])
  = Some (File (Bytes "bytes of A")) ∧
  merged [["B"]; ["A"]] two_sources !! (["out"] ++ ["d"; "blob.bin"])
  = Some (File (Bytes "bytes of B")).
Proof.
  split.
  - destruct (merge_opaque_first_source rglob_listing [["A"]; ["B"]] ["out"]
                two_sources (merged [["A"]; ["B"]] two_sources) [] [["B"]] ["A"]
                ["d"; "blob.bin"] (Bytes "bytes of A")) as [H _].
    + apply rglob_listing_lists_below.
    + apply apart_AB_out.
    + repeat constructor.
    + reflexivity.
    + done.
    + vm_compute. discriminate.
    + vm_compute. discriminate.
    + apply (bool_decide_unpack _). vm_compute. exact I.
    + by vm_compute.
    + intros c' Hc'. by apply elem_of_nil in Hc'.
    + apply merge_AB_Ok.
    + apply H. by vm_compute.
  - destruct (merge_opaque_first_source rglob_listing [["B"]; ["A"]] ["out"]
                two_sources (merged [["B"]; ["A"]] two_sources) [] [["A"]] ["B"]
                ["d"; "blob.bin"] (Bytes "bytes of B")) as [H _].
    + apply rglob_listing_lists_below.
    + apply apart_BA_out.
    + repeat constructor.
    + reflexivity.
    + done.
    + vm_compute. discriminate.
    + vm_compute. discriminate.
    + apply (bool_decide_unpack _). vm_compute. exact I.
    + by vm_compute.
    + intros c' Hc'. by apply elem_of_nil in Hc'.
    + apply merge_BA_Ok.
    + apply H. by vm_compute.
Defined.

(** C7.  The code at two sources whose roots have two components,
    [data/A] and [data/B], each holding [x.txt]: the merge completes,
    nothing lands at [out/x.txt], and the two entries land at
    [out/A/x.txt] and [out/B/x.txt], the last component of each root
    being kept in the output path. *)
Theorem merge_nested_roots_keep_root_name :
  merge_caches rglob_listing [["data"; "A"]; ["data"; "B"]] ["out"] nested_roots
  = Ok (merged [["data"; "A"]; ["data"; "B"]] nested_roots) ∧
  merged [["data"; "A"]; ["data"; "B"]] nested_roots !! ["out"; "x.txt"] = None ∧
  merged [["data"; "A"]; ["data"; "B"]] nested_roots !! ["out"; "A"; "x.txt"]
  = Some (File (Bytes "entry of A")) ∧
  merged [["data"; "A"]; ["data"; "B"]] nested_roots !! ["out"; "B"; "x.txt"]
  = Some (File (Bytes "entry of B")).
Proof. split_and!; [apply merge_nested_Ok|by vm_compute..]. Qed.


(** What the call of the witness writes: the members in the order of
    their keys, at both levels. *)
Example merge_json_data_writes_sorted :
  tree_of (merge_json_data unsorted_source [["U"; "x.json"]; ["nowhere"; "x.json"]]
             ["out"; "deep"; "m.json"]) !! ["out"; "deep"; "m.json"]
  = Some (File (Mapping [("k1", JObj [("a", JInt 1); ("b", JInt 2)]); ("k2", JStr "v3")])).
Proof. by vm_compute. Qed.

(** The claim of C3 fails on the code: a slug with two separators, and
    a hash of 40 characters that are not hexadecimal, pass validation
    and reach [Repository]. *)
Lemma head_validation_lets_pass :
  calls (head_passes_tests (stub Tests_failed) 10
           (task "a/b/c" hash40, ["cache"]) (world ∅)).1 ≠ [] ∧
  head_test_result (row_of (head_passes_tests (stub Tests_failed) 10
           (task "a/b/c" hash40, ["cache"]) (world ∅)).2) = Some "Tests_failed" ∧
  calls (head_passes_tests (stub Tests_failed) 10
           (task "a/b" nonhex40, ["cache"]) (world ∅)).1 ≠ [] ∧
  head_test_result (row_of (head_passes_tests (stub Tests_failed) 10
           (task "a/b" nonhex40, ["cache"]) (world ∅)).2) = Some "Tests_failed".
Proof. split_and!; vm_compute; done. Qed.

Lemma head_validation_rejects_witness :
  head_passes_tests (stub Tests_passed) 10 (task "not-a-slug" hash40, ["cache"]) (world ∅)
  = (world ∅, Ok (set_head_test_result (task "not-a-slug" hash40) "Wrong format")) ∧
  head_passes_tests (stub Tests_passed) 10 (task "a/b" hash39, ["cache"]) (world ∅)
  = (world ∅, Ok (set_head_test_result (task "a/b" hash39) "No valid head hash")).
Proof.
  split.
  - apply (head_validation_rejects (stub Tests_passed) 10
             (task "not-a-slug" hash40) ["cache"] (world ∅)). reflexivity.
  - apply (head_validation_rejects (stub Tests_passed) 10
             (task "a/b" hash39) ["cache"] (world ∅)); [reflexivity|].
    vm_compute. lia.
Defined.

(** The claim of C2 fails on the code: an exception of
    [checkout_and_test] leaves [head_passes_tests] as an exception; no
    row is returned, and no outcome recorded. *)
Lemma head_exception_propagates :
  (head_run stub_raising ∅).2 = Raise (Exception "boom").
Proof. vm_compute. reflexivity. Qed.

Lemma head_exceptions_witness :
  head_passes_tests stub_raising 10 (task "a/b" hash40, ["cache"]) (world ∅)
  = (log_call (Call_checkout_and_test hash40 10 3)
       (log_call (Call_Repository "a/b" ["cache"] "a/b/head-a/b" true) (world ∅)),
     Raise (Exception "boom")).
Proof.
  destruct (head_exceptions stub_raising 10 (task "a/b" hash40) ["cache"] (world ∅))
    as (_ & H & _); [reflexivity..|].
  apply (H (log_call (Call_Repository "a/b" ["cache"] "a/b/head-a/b" true) (world ∅))
           ["cache"; "workdir"]); reflexivity.
Defined.

(** The claim of C8 fails on the code.  With an entry of the working
    directory that refuses deletion, the outcome is [Tests_failed] and
    the working directory is still there.  With a test run that leaves
    the working directory empty, the outcome is [Tests_passed] and
    nothing lies below the directory.  With a constructor that makes
    the working directory and then raises, the outcome is
    [Git_checkout_failed] and the directory is still there.  With a
    regular file at the path, the outcome is [Tests_failed] and the
    path still exists. *)
Lemma head_cleanup_leaves_directory :
  (head_test_result (row_of (head_run (stub Tests_failed) {[ ["cache"; "workdir"; "f"] ]}).2)
   = Some "Tests_failed" ∧
   is_dir (fs (head_run (stub Tests_failed) {[ ["cache"; "workdir"; "f"] ]}).1)
     ["cache"; "workdir"] = true) ∧
  (head_test_result (row_of (head_run (stub_bare Tests_passed) ∅).2) = Some "Tests_passed" ∧
   is_dir (fs (head_run (stub_bare Tests_passed) ∅).1) ["cache"; "workdir"] = true ∧
   rglob_listing (fs (head_run (stub_bare Tests_passed) ∅).1) ["cache"; "workdir"] = []) ∧
  (head_test_result (row_of (head_run stub_failing_constructor ∅).2)
   = Some "Git_checkout_failed" ∧
   is_dir (fs (head_run stub_failing_constructor ∅).1) ["cache"; "workdir"] = true) ∧
  (head_test_result (row_of (head_run (stub_file Tests_failed) ∅).2) = Some "Tests_failed" ∧
   exists_ (fs (head_run (stub_file Tests_failed) ∅).1) ["cache"; "workdir"] = true).
Proof. split_and!; vm_compute; reflexivity. Qed.

Lemma pair_Ok_eta {A B} (x : A * result B) (b : B) :
  x.2 = Ok b → x = (x.1, Ok b).
Proof. destruct x as [a r]. simpl. by intros ->. Qed.

Lemma head_cleanup_witness :
  let w2 := (checkout_and_test (stub Tests_failed) ["cache"; "workdir"] hash40 10 3
               (log_call (Call_checkout_and_test hash40 10 3)
                  (log_call (Call_Repository "a/b" ["cache"] "a/b/head-a/b" true)
                     (world ∅)))).1 in
  let w' := (rmtree_ignore_errors ["cache"; "workdir"] w2).1 in
  ∃ row,
    head_run (stub Tests_failed) ∅ = (w', Ok row) ∧
    head_test_result row = Some "Tests_failed" ∧
    exists_ (fs w') ["cache"; "workdir"] = false.
Proof.
  intros w2 w'.
  set (w1 := log_call (Call_Repository "a/b" ["cache"] "a/b/head-a/b" true) (world ∅)).
  set (x := checkout_and_test (stub Tests_failed) ["cache"; "workdir"] hash40 10 3
              (log_call (Call_checkout_and_test hash40 10 3) w1)).
  destruct (head_cleanup (stub Tests_failed) 10 (task "a/b" hash40) ["cache"] (world ∅))
    as [_ H]; [reflexivity..|].
  destruct (H w1 ["cache"; "workdir"] x.1 Tests_failed "log" (Some "fingerprint"))
    as [Hfail _].
  - reflexivity.
  - apply (pair_Ok_eta x). reflexivity.
  - destruct Hfail as (row & Hrun & Hres & _ & Habsent); [done|].
    exists row. split_and!; [exact Hrun|exact Hres|].
    apply Habsent; [done|by vm_compute|].
    intros r Hr. assert (E : undeletable x.1 = ∅) by reflexivity.
    rewrite E in Hr. destruct (not_elem_of_empty (C:=gset path) r Hr).
Defined.



(** * Part III: further properties of the code *)

(** ** What a merge leaves alone *)

(** X1.  A merge that completes leaves every source as it was: whatever
    lies at or below a source directory is the same before and after,
    provided that no source lies inside the output directory, nor the
    output directory inside a source. *)
Theorem merge_leaves_sources (rglob : FS → path → list path)
    (caches : list path) (out : path) (σ σ' : FS) (c q : path) :
  apart caches out →
  merge_caches rglob caches out σ = Ok σ' →
  c ∈ caches → c `prefix_of` q →
  σ' !! q = σ !! q.
Proof.
  intros Hapart Hrun Hc Hq.
  by apply (merge_caches_agree caches out Hapart rglob σ σ' Hrun c q).
Qed.

Lemma written_is_dir (τ τ' : FS) (t q : path) (v : content) :
  written τ τ' t v → is_dir τ q → is_dir τ' q.
Proof.
  intros Hw. unfold is_dir. destruct q as [|y q]; [done|].
  rewrite !node_at_lookup by done.
  destruct (decide (y :: q = t)) as [->|Hne].
  - destruct Hw as (_ & Hnd & _). by destruct (τ !! t) as [[]|].
  - destruct (τ !! (y :: q)) eqn:E; [|done].
    by rewrite (written_kept τ τ' _ _ _ Hw), E.
Qed.

Lemma made_dirs_kept (σ σ' : FS) (p q : path) :
  made_dirs σ σ' p → is_Some (σ !! q) → σ' !! q = σ !! q.
Proof.
  intros [_ Hq] [n Hn]. destruct (Hq q) as [?|(? & _)]; [done|congruence].
Qed.

Lemma node_at_kept (σ σ' : FS) (q : path) :
  (is_Some (σ !! q) → σ' !! q = σ !! q) →
  is_Some (node_at σ q) → node_at σ' q = node_at σ q.
Proof. destruct q as [|y q]; [done|]. rewrite !node_at_lookup by done. auto. Qed.

(** X2.  A merge that completes removes nothing: what existed still
    exists, a file is still a file and a directory is still a
    directory. *)
Theorem merge_never_removes (rglob : FS → path → list path)
    (caches : list path) (out : path) (σ σ' : FS) (q : path) :
  merge_caches rglob caches out σ = Ok σ' →
  (exists_ σ q → exists_ σ' q) ∧
  (is_file σ q → is_file σ' q) ∧
  (is_dir σ q → is_dir σ' q).
Proof.
  intros Hrun.
  eapply (merge_caches_inv rglob
    (λ τ, (exists_ σ q → exists_ τ q) ∧ (is_file σ q → is_file τ q) ∧
          (is_dir σ q → is_dir τ q))); [exact Hrun| |].
  - intros σ0 [[-> _]|Hmk]; [done|].
    assert (Hk : is_Some (node_at σ q) → node_at σ0 q = node_at σ q).
    { apply node_at_kept. by apply made_dirs_kept with out. }
    unfold exists_, is_file, is_dir.
    destruct (node_at σ q) as [n|] eqn:E; [|done].
    rewrite Hk by done. done.
  - intros c p τ τ' _ (Hex & Hf & Hd) Hv.
    destruct Hv as [-> _|data _ _ _ Hw|v _ _ _ _ Hw]; [done| |];
      (split_and!; intros H;
       [eapply written_exists; [done|auto]
       |eapply written_is_file; [done|auto]
       |eapply written_is_dir; [done|auto]]).
Qed.

(** X3.  A merge that completes changes the tree only at or below the
    output directory, apart from the directories that it makes on the
    way down to the output directory where there were none. *)
Theorem merge_writes_inside_output (rglob : FS → path → list path)
    (caches : list path) (out : path) (σ σ' : FS) (q : path) :
  merge_caches rglob caches out σ = Ok σ' →
  σ' !! q = σ !! q ∨
  out `prefix_of` q ∨
  (q `prefix_of` out ∧ σ !! q = None ∧ σ' !! q = Some Dir).
Proof.
  intros Hrun.
  eapply (merge_caches_inv rglob
    (λ τ, τ !! q = σ !! q ∨ out `prefix_of` q ∨
          (q `prefix_of` out ∧ σ !! q = None ∧ τ !! q = Some Dir)));
    [exact Hrun| |].
  - intros σ0 [[-> _]|[_ Hmk]]; [by left|].
    destruct (Hmk q) as [?|(? & ? & ?)]; [by left|]. right. by right.
  - intros c p τ τ' _ Hτ Hv.
    assert (Hstep : ∀ v, written τ τ' (out ++ tail p) v →
              τ' !! q = σ !! q ∨ out `prefix_of` q ∨
              (q `prefix_of` out ∧ σ !! q = None ∧ τ' !! q = Some Dir)).
    { intros v (_ & _ & _ & _ & Hq).
      destruct (decide (q = out ++ tail p)) as [->|Hne].
      { right. left. by apply prefix_app_r. }
      destruct (Hq q Hne) as [E|(Hnone & Hdir & Hpre)]; [by rewrite E|].
      destruct (prefix_weak_total q out (out ++ tail p)) as [Hqo|?];
        [done|by apply prefix_app_r| |by right; left].
      destruct Hτ as [E|[?|(_ & _ & ?)]]; [|by right; left|congruence].
      right. right. split_and!; [done| |done]. by rewrite <-E. }
    destruct Hv as [-> _|data _ _ _ Hw|v _ _ _ _ Hw]; [done|by eapply Hstep..].
Qed.

(** X4.  A merge that completes overwrites only [.json] files: an entry
    that was there before the merge, whose suffix is not [.json] and
    which is not the output directory, is the same afterwards.  So a
    file of the output that is not structured is never replaced by that
    of a source. *)
Theorem merge_keeps_opaque_output (rglob : FS → path → list path)
    (caches : list path) (out : path) (σ σ' : FS) (q : path) :
  merge_caches rglob caches out σ = Ok σ' →
  is_Some (σ !! q) → suffix q ≠ ".json" → q ≠ out →
  σ' !! q = σ !! q.
Proof.
  intros Hrun Hq Hj Hout.
  eapply (merge_caches_inv rglob (λ τ, τ !! q = σ !! q)); [exact Hrun| |].
  - intros σ0 [[-> _]|Hmk]; [done|]. by apply made_dirs_kept with out.
  - intros c p τ τ' _ Hτ Hv.
    assert (Hsome : is_Some (τ !! q)) by (by rewrite Hτ).
    destruct Hv as [-> _|data _ Hjp _ Hw|v _ _ Hnex _ Hw]; [done| |].
    + rewrite (written_kept τ τ' _ _ _ Hw); [done| |done].
      intros ->. destruct (decide (tail p = [])) as [E|E].
      * rewrite E, app_nil_r in Hout. done.
      * rewrite suffix_output in Hj by done. done.
    + rewrite (written_kept τ τ' _ _ _ Hw); [done| |done].
      intros ->. destruct Hnex. unfold exists_.
      destruct (out ++ tail p) as [|y t]; [done|].
      rewrite node_at_lookup by done. by destruct Hsome as [n ->].
Qed.


(** ** What a merge needs and what it gives *)

(** X6.  A merge completes only if every source exists: the traversal
    of a source begins with [directory.stat()], which raises on a
    missing directory. *)
Theorem merge_needs_sources (rglob : FS → path → list path)
    (caches : list path) (out : path) (σ σ' : FS) (c : path) :
  lists_below rglob →
  apart caches out →
  merge_caches rglob caches out σ = Ok σ' →
  c ∈ caches →
  exists_ σ c.
Proof.
  intros Hrglob Hapart Hrun Hc.
  by apply (merge_caches_source_exists caches out Hapart rglob Hrglob σ σ' c).
Qed.

(** X7.  After a merge that completes, every file below a source that
    is not a lock has something at its place
    [output_cache / relative_path], and a [.json] file has a file
    there. *)
Theorem merge_gives_every_entry_a_place (rglob : FS → path → list path)
    (caches : list path) (out : path) (σ σ' : FS) (c p : path) :
  lists_below rglob →
  apart caches out →
  merge_caches rglob caches out σ = Ok σ' →
  c ∈ caches → below σ c p → is_file σ p → suffix p ≠ ".lock" →
  exists_ σ' (out ++ tail p) ∧
  (suffix p = ".json" → is_file σ' (out ++ tail p)).
Proof.
  intros Hrglob Hapart Hrun Hc Hp Hf Hl. split.
  - destruct (decide (suffix p = ".json")) as [Hj|Hj].
    + apply is_file_exists.
      by apply (merge_caches_json_done caches out Hapart rglob Hrglob σ σ' c p).
    + by apply (merge_caches_copy_done caches out Hapart rglob Hrglob σ σ' c p).
  - intros Hj.
    by apply (merge_caches_json_done caches out Hapart rglob Hrglob σ σ' c p).
Qed.

Lemma load_all_head_unreadable (σ : FS) (p : path) (rest : list path) (data : list (string * json)) :
  load_all σ (p :: rest) = Ok data →
  is_file σ p →
  ∃ items, node_at σ p = Some (File (Mapping items)).
Proof.
  unfold load_all. simpl. unfold is_file, exists_, read_file.
  destruct (node_at σ p) as [[[b|items]|]|]; try done. by exists items.
Qed.

(** X8.  A merge does not complete when a source holds, below it, a
    [.json] file whose content is not JSON: the run ends in an
    exception. *)
Theorem merge_stops_at_malformed_entry (rglob : FS → path → list path)
    (caches : list path) (out : path) (σ : FS) (c p : path) (b : string) :
  lists_below rglob →
  apart caches out →
  c ∈ caches → below σ c p → suffix p = ".json" →
  node_at σ p = Some (File (Bytes b)) →
  ∃ e, merge_caches rglob caches out σ = Raise e.
Proof.
  intros Hrglob Hapart Hc Hp Hj Hb.
  destruct (merge_caches rglob caches out σ) as [σ'|e] eqn:Hrun; [|by exists e].
  assert (Hf : is_file σ p) by (unfold is_file; by rewrite Hb).
  destruct (merge_caches_json_done caches out Hapart rglob Hrglob σ σ' c p)
    as ((data & Hload) & _); [done..|].
  apply load_all_head_unreadable in Hload as (items & Hitems); [|done].
  congruence.
Qed.

(** ** [copy_file] *)

(** X9.  [copy_file] copies at most once.  When it returns, the
    destination exists; a destination that existed leaves the tree
    untouched; otherwise the destination holds the content of the
    source; the source is as it was; and a second call changes
    nothing. *)
Theorem copy_file_copies_once (σ σ' : FS) (source destination : path) :
  copy_file σ source destination = Ok σ' →
  exists_ σ' destination ∧
  (exists_ σ destination → σ' = σ) ∧
  (¬ exists_ σ destination →
     ∃ c, node_at σ source = Some (File c) ∧ σ' !! destination = Some (File c)) ∧
  node_at σ' source = node_at σ source ∧
  copy_file σ' source destination = Ok σ'.
Proof.
  intros Hcopy.
  assert (Hex : exists_ σ' destination).
  { apply copy_file_Ok in Hcopy as [[? ->]|(_ & c & _ & Hw)]; [done|].
    destruct Hw as (Ht & _ & Hf & _). unfold exists_.
    by rewrite node_at_lookup, Hf. }
  split_and!; [done| | | |].
  - intros Hd. apply copy_file_Ok in Hcopy as [[_ ->]|(Hn & _)]; done.
  - intros Hn. apply copy_file_Ok in Hcopy as [[? _]|(_ & c & Hs & Hw)]; [done|].
    exists c. split; [done|]. apply Hw.
  - apply copy_file_Ok in Hcopy as [[_ ->]|(Hn & c & Hs & Hw)]; [done|].
    apply node_at_kept; [|by rewrite Hs].
    intros Hsome. apply (written_kept σ σ' _ _ _ Hw); [|done].
    intros ->. apply Hn. unfold exists_. by rewrite Hs.
  - unfold copy_file. by destruct (exists_ σ' destination).
Qed.

Lemma made_dirs_not_file (σ σ' : FS) (p q : path) :
  made_dirs σ σ' p → is_file σ q = false → is_file σ' q = false.
Proof.
  intros Hmk Hnf. destruct (is_file σ' q) eqn:E; [|done].
  assert (is_file σ q) as Hf by (eapply made_dirs_is_file; [done|by rewrite E]).
  by rewrite Hnf in Hf.
Qed.

(** X10.  [copy_file] raises when the destination does not exist and
    the source is not a file. *)
Theorem copy_file_needs_a_file (σ : FS) (source destination : path) :
  exists_ σ destination = false →
  is_file σ source = false →
  ∃ e, copy_file σ source destination = Raise e.
Proof.
  intros Hd Hs. unfold copy_file. rewrite Hd. simpl.
  destruct (mkdir_parents σ (parent destination)) as [σ1|e] eqn:Hmk; [|by exists e].
  simpl. apply mkdir_parents_Ok in Hmk.
  apply (made_dirs_not_file _ _ _ source Hmk) in Hs.
  unfold shutil_copy, read_file. unfold is_file in Hs.
  destruct (node_at σ1 source) as [[]|]; [done|by eexists..].
Qed.

(** ** Dictionaries *)

Lemma dict_get_app (l1 l2 : list (string * json)) (k : string) :
  dict_get (l1 ++ l2) k =
  match dict_get l1 k with Some v => Some v | None => dict_get l2 k end.
Proof.
  induction l1 as [|[k' v'] l1 IH]; simpl; [done|].
  by destruct (String.eqb k' k).
Qed.

Lemma dict_get_set (d : list (string * json)) (k k' : string) (v : json) :
  dict_get (dict_set d k v) k' = if decide (k = k') then Some v else dict_get d k'.
Proof.
  induction d as [|[k0 v0] d IH]; simpl.
  - destruct (String.eqb_spec k k'); by case_decide.
  - destruct (String.eqb_spec k0 k) as [->|Hne]; simpl.
    + destruct (String.eqb_spec k k'); by case_decide.
    + rewrite IH. destruct (String.eqb_spec k0 k') as [->|?]; [|done].
      by rewrite decide_False by congruence.
Qed.

Lemma dict_get_None (d : list (string * json)) (k : string) :
  dict_get d k = None ↔ k ∉ d.*1.
Proof.
  induction d as [|[k' v'] d IH]; simpl.
  - split; [intros _; apply not_elem_of_nil|done].
  - rewrite not_elem_of_cons. destruct (String.eqb_spec k' k) as [->|Hne].
    + split; [done|]. by intros [? _].
    + rewrite IH. split; [by intros ?; split|by intros [_ ?]].
Qed.

Lemma dict_get_elem (d : list (string * json)) (k : string) (v : json) :
  NoDup d.*1 → dict_get d k = Some v ↔ (k, v) ∈ d.
Proof.
  induction d as [|[k' v'] d IH]; simpl; intros Hnd.
  - split; [done|]. by intros ?%elem_of_nil.
  - apply NoDup_cons in Hnd as [Hk' Hnd]. rewrite elem_of_cons.
    destruct (String.eqb_spec k' k) as [->|Hne].
    + split; [intros [= ->]; by left|].
      intros [[= ->]|Hin]; [done|].
      destruct Hk'. apply list_elem_of_fmap. by exists (k, v).
    + rewrite IH by done. split; [by right|]. intros [[= -> ->]|?]; done.
Qed.

Lemma dict_get_Permutation (l l' : list (string * json)) (k : string) :
  NoDup l.*1 → l ≡ₚ l' → dict_get l k = dict_get l' k.
Proof.
  intros Hnd Hperm.
  assert (Hnd' : NoDup l'.*1) by (by rewrite <-Hperm).
  destruct (dict_get l k) as [v|] eqn:E.
  - symmetry. apply dict_get_elem; [done|]. rewrite <-Hperm. by apply dict_get_elem.
  - symmetry. apply dict_get_None. rewrite <-Hperm. by apply dict_get_None.
Qed.

Lemma dict_get_fmap (f : json → json) (l : list (string * json)) (k : string) :
  dict_get (map (λ kv, (fst kv, f (snd kv))) l) k = f <$> dict_get l k.
Proof.
  induction l as [|[k' v'] l IH]; simpl; [done|].
  by destruct (String.eqb k' k).
Qed.

Lemma fmap_keys (f : json → json) (l : list (string * json)) :
  (map (λ kv, (fst kv, f (snd kv))) l).*1 = l.*1.
Proof. induction l as [|[k' v'] l IH]; [done|]. csimpl. by f_equal. Qed.

Lemma dict_set_keys (d : list (string * json)) (k : string) (v : json) :
  (dict_set d k v).*1 = if decide (k ∈ d.*1) then d.*1 else d.*1 ++ [k].
Proof.
  induction d as [|[k0 v0] d IH].
  - rewrite decide_False; [done|apply not_elem_of_nil].
  - cbn [dict_set]. destruct (String.eqb_spec k0 k) as [->|Hne]; csimpl.
    + rewrite decide_True; [done|by left].
    + rewrite IH. destruct (decide (k ∈ d.*1)) as [Hin|Hnin].
      * rewrite decide_True; [done|by right].
      * rewrite decide_False; [done|]. rewrite not_elem_of_cons. by split.
Qed.

Lemma dict_set_NoDup (d : list (string * json)) (k : string) (v : json) :
  NoDup d.*1 → NoDup (dict_set d k v).*1.
Proof.
  intros Hnd. rewrite dict_set_keys. case_decide; [done|].
  apply NoDup_app. split_and!; [done| |apply NoDup_singleton].
  intros x Hx ->%list_elem_of_singleton. done.
Qed.

Lemma foldl_dict_set_NoDup (items d : list (string * json)) :
  NoDup d.*1 → NoDup (foldl (λ acc kv, dict_set acc kv.1 kv.2) d items).*1.
Proof.
  revert d. induction items as [|kv items IH]; intros d Hnd; simpl; [done|].
  by apply IH, dict_set_NoDup.
Qed.

Lemma dict_get_foldl (items d : list (string * json)) (k : string) :
  dict_get (foldl (λ acc kv, dict_set acc kv.1 kv.2) d items) k =
  match text_get items k with Some v => Some v | None => dict_get d k end.
Proof.
  revert d. induction items as [|[k0 v0] items IH]; intros d; simpl; [done|].
  rewrite IH, dict_get_set. unfold text_get. rewrite reverse_cons, dict_get_app.
  destruct (dict_get (reverse items) k); [done|]. simpl.
  destruct (String.eqb_spec k0 k); by case_decide.
Qed.

Lemma text_get_fmap (f : json → json) (l : list (string * json)) (k : string) :
  text_get (map (λ kv, (fst kv, f (snd kv))) l) k = f <$> text_get l k.
Proof.
  unfold text_get. rewrite <-dict_get_fmap. f_equal.
  symmetry. apply (fmap_reverse (λ kv, (fst kv, f (snd kv)))).
Qed.

Lemma text_get_NoDup (d : list (string * json)) (k : string) :
  NoDup d.*1 → text_get d k = dict_get d k.
Proof.
  intros Hnd. unfold text_get. symmetry.
  apply dict_get_Permutation; [done|]. by rewrite reverse_Permutation.
Qed.

(** The [dict] that [json.load] builds has each key once, with the value
    of its last member in the text. *)
Lemma json_load_get (items data : list (string * json)) (k : string) :
  json_load (Mapping items) = Ok data →
  NoDup data.*1 ∧ dict_get data k = load_value <$> text_get items k.
Proof.
  intros [= <-]. unfold dict_of_items. split.
  - apply foldl_dict_set_NoDup. simpl. apply NoDup_nil_2.
  - rewrite dict_get_foldl, text_get_fmap. simpl.
    by destruct (text_get items k).
Qed.

Lemma dict_update_get (data d : list (string * json)) (k : string) :
  NoDup d.*1 →
  dict_get (dict_update data d) k =
  match dict_get d k with Some v => Some v | None => dict_get data k end.
Proof.
  intros Hnd. unfold dict_update. by rewrite dict_get_foldl, text_get_NoDup.
Qed.

(** What [json.dump] writes holds, for each key of [data], the value
    with its keys sorted. *)
Lemma json_dump_get (data : list (string * json)) (k : string) :
  NoDup data.*1 →
  ∃ items, json_dump data = Mapping items ∧ NoDup items.*1 ∧
           dict_get items k = sort_keys <$> dict_get data k.
Proof.
  intros Hnd. eexists. split; [done|].
  assert (Hnd' : NoDup (map (λ kv, (fst kv, sort_keys (snd kv))) data).*1)
    by (by rewrite fmap_keys).
  split.
  - by rewrite sort_by_key_Permutation.
  - rewrite <-dict_get_fmap. symmetry.
    apply dict_get_Permutation; [done|]. by rewrite sort_by_key_Permutation.
Qed.

(** ** [merge_json_data] *)

Lemma for_each_app_eq {A S} (body : A → S → result S) (l1 l2 : list A) (s : S) :
  for_each body (l1 ++ l2) s = (s1 ← for_each body l1 s; for_each body l2 s1).
Proof.
  revert s. induction l1 as [|x l1 IH]; intros s; simpl; [done|].
  destruct (body x s) as [s2|]; simpl; [apply IH|done].
Qed.

Lemma load_from_cons (σ : FS) (p : path) (paths : list path)
    (acc data : list (string * json)) :
  load_from σ (p :: paths) acc = Ok data →
  (exists_ σ p = false ∧ load_from σ paths acc = Ok data) ∨
  (∃ items d, node_at σ p = Some (File (Mapping items)) ∧
              json_load (Mapping items) = Ok d ∧
              load_from σ paths (dict_update acc d) = Ok data).
Proof.
  unfold load_from. simpl. unfold exists_, read_file.
  destruct (node_at σ p) as [[[b|items]|]|]; simpl; try done.
  - intros H. right. by eexists _, _.
  - intros H. by left.
Qed.

Lemma dict_update_NoDup (acc d : list (string * json)) :
  NoDup acc.*1 → NoDup (dict_update acc d).*1.
Proof. apply foldl_dict_set_NoDup. Qed.

Lemma load_from_NoDup (σ : FS) (paths : list path) : ∀ acc data,
  NoDup acc.*1 → load_from σ paths acc = Ok data → NoDup data.*1.
Proof.
  induction paths as [|p paths IH]; intros acc data Hnd.
  - by intros [= <-].
  - intros [[_ H]|(items & d & _ & _ & H)]%load_from_cons; [by eapply IH|].
    eapply IH; [|done]. by apply dict_update_NoDup.
Qed.

Lemma load_from_lacks (σ : FS) (k : string) (paths : list path) : ∀ acc data,
  Forall (lacks σ k) paths →
  load_from σ paths acc = Ok data →
  dict_get data k = dict_get acc k.
Proof.
  induction paths as [|p paths IH]; intros acc data Hl.
  - by intros [= <-].
  - apply Forall_cons in Hl as [Hp Hl].
    intros [[_ H]|(items & d & Hitems & Hd & H)]%load_from_cons; [by eapply IH|].
    rewrite (IH _ _ Hl H).
    destruct (json_load_get items d k Hd) as [Hnd Hget].
    rewrite dict_update_get, Hget by done.
    destruct Hp as [Hex|(items' & Hitems' & Hnone)].
    + unfold exists_ in Hex. by rewrite Hitems in Hex.
    + rewrite Hitems in Hitems'. injection Hitems' as <-. by rewrite Hnone.
Qed.

Lemma load_from_last (σ : FS) (k : string) (v : json) (l1 l2 : list path) (p : path)
    (doc acc data : list (string * json)) :
  load_from σ (l1 ++ p :: l2) acc = Ok data →
  node_at σ p = Some (File (Mapping doc)) →
  text_get doc k = Some v →
  Forall (lacks σ k) l2 →
  dict_get data k = Some (load_value v).
Proof.
  unfold load_from. rewrite for_each_app_eq.
  destruct (for_each _ l1 acc) as [acc1|] eqn:E1; [|done]. simpl.
  intros Hrun Hdoc Hv Hl2.
  apply (load_from_cons σ p l2 acc1 data) in Hrun
    as [[Hex _]|(items & d & Hitems & Hd & H)].
  - unfold exists_ in Hex. by rewrite Hdoc in Hex.
  - rewrite (load_from_lacks σ k l2 _ _ Hl2 H).
    rewrite Hdoc in Hitems. injection Hitems as <-.
    destruct (json_load_get doc d k Hd) as [Hnd Hget].
    by rewrite dict_update_get, Hget, Hv.
Qed.

(** X11.  What [merge_json_data] writes when it returns.  The output
    holds a document whose keys are distinct; a key has the value given
    by the last path of the list whose document has the key (the last
    occurrence of the key in that document), loaded and with the keys of
    its objects sorted; a key that no document has is absent.  A path
    that does not exist counts as a document without keys. *)
Theorem merge_json_data_last_wins (σ σ' : FS) (paths : list path) (t : path) :
  merge_json_data σ paths t = Ok σ' →
  ∃ items,
    σ' !! t = Some (File (Mapping items)) ∧
    NoDup items.*1 ∧
    (∀ l1 p l2 doc k v,
       paths = l1 ++ p :: l2 →
       node_at σ p = Some (File (Mapping doc)) →
       text_get doc k = Some v →
       Forall (lacks σ k) l2 →
       dict_get items k = Some (sort_keys (load_value v))) ∧
    (∀ k, Forall (lacks σ k) paths → dict_get items k = None).
Proof.
  intros (data & Hload & Hw)%merge_json_data_Ok.
  change (load_from σ paths [] = Ok data) in Hload.
  assert (Hnd : NoDup data.*1).
  { eapply load_from_NoDup; [|done]. apply NoDup_nil_2. }
  exists (sort_by_key (map (λ kv, (fst kv, sort_keys (snd kv))) data)).
  assert (Hget : ∀ k,
    dict_get (sort_by_key (map (λ kv, (fst kv, sort_keys (snd kv))) data)) k
    = sort_keys <$> dict_get data k).
  { intros k. destruct (json_dump_get data k Hnd) as (items & [= <-] & _ & ?). done. }
  split_and!.
  - apply Hw.
  - destruct (json_dump_get data EmptyString Hnd) as (items & [= <-] & ? & _). done.
  - intros l1 p l2 doc k v -> Hdoc Hv Hl2.
    by rewrite Hget, (load_from_last σ k v l1 l2 p doc [] data).
  - intros k Hl. by rewrite Hget, (load_from_lacks σ k paths [] data).
Qed.

(** X12.  [merge_json_data] run again on its own result returns and
    changes nothing, provided that no input path is the output path or
    lies above it. *)
Theorem merge_json_data_twice (σ σ' : FS) (paths : list path) (t : path) :
  (∀ p, p ∈ paths → ¬ p `prefix_of` t) →
  merge_json_data σ paths t = Ok σ' →
  merge_json_data σ' paths t = Ok σ'.
Proof.
  intros Hpaths (data & Hload & Hw)%merge_json_data_Ok.
  pose proof Hw as (Ht & _ & Hfile & Hpar & Hq).
  rewrite (merge_json_data_again σ' paths t data).
  - f_equal. by apply insert_id.
  - rewrite <-Hload. apply load_all_ext. intros p Hp.
    assert (Hpt : p ≠ t) by (intros ->; by apply (Hpaths t)).
    destruct p as [|y p]; [done|]. rewrite !node_at_lookup by done.
    destruct (Hq _ Hpt) as [?|(_ & _ & Hpre)]; [done|]. by apply Hpaths in Hpre.
  - done.
  - unfold is_file. by rewrite node_at_lookup, Hfile.
Qed.

Lemma load_from_loadable (σ : FS) (paths : list path) : ∀ acc,
  Forall (loadable σ) paths → ∃ data, load_from σ paths acc = Ok data.
Proof.
  induction paths as [|p paths IH]; intros acc Hl; [by exists acc|].
  apply Forall_cons in Hl as [Hp Hl]. unfold load_from. simpl.
  unfold exists_, read_file.
  destruct Hp as [Hex|(items & Hitems)].
  - unfold exists_ in Hex. destruct (node_at σ p); [done|]. by apply IH.
  - rewrite Hitems. simpl. by apply IH.
Qed.

(** X13.  [merge_json_data] raises at the first path of the list that
    exists and holds no JSON document, the paths before it being absent
    or well formed: [JSONDecodeError] for a file that is not JSON,
    [IsADirectoryError] for a directory. *)
Theorem merge_json_data_rejects (σ : FS) (l1 l2 : list path) (p t : path) :
  Forall (loadable σ) l1 →
  (∀ b, node_at σ p = Some (File (Bytes b)) →
     merge_json_data σ (l1 ++ p :: l2) t = Raise JSONDecodeError) ∧
  (node_at σ p = Some Dir →
     merge_json_data σ (l1 ++ p :: l2) t = Raise IsADirectoryError).
Proof.
  intros Hl1. destruct (load_from_loadable σ l1 [] Hl1) as (acc & Hacc).
  assert (Heq : load_all σ (l1 ++ p :: l2) = load_from σ (p :: l2) acc).
  { unfold load_all, load_from in *. by rewrite for_each_app_eq, Hacc. }
  unfold merge_json_data. rewrite Heq. unfold load_from. simpl.
  unfold exists_, read_file. split.
  - intros b ->. done.
  - intros ->. done.
Qed.

(** ** The rows of [head_passes_tests] *)

(** X14.  The row that [head_passes_tests] returns has the columns
    [repository] and [head hash] of the row given, and an outcome that
    is ["Wrong format"], ["No valid head hash"] or the name of a
    [TEST_STATE].  A row with one of the first two outcomes has left the
    world untouched and has no fingerprint assigned.  A row with the
    outcome [Tests_passed] has a slug with a separator, a hash of 40
    characters and a fingerprint assigned, and the working directory of
    the repository that the constructor returned for the task exists
    when the function returns. *)
Theorem head_row_outcome (R : Runner) (T : Z) (info : Series) (cache : path)
    (w w' : World) (row : Series) :
  head_passes_tests R T (info, cache) w = (w', Ok row) →
  repository row = repository info ∧
  head_hash row = head_hash info ∧
  (head_test_result row = Some "Wrong format" ∨
   head_test_result row = Some "No valid head hash" ∨
   ∃ state, head_test_result row = Some (state_name state)) ∧
  ((head_test_result row = Some "Wrong format" ∨
    head_test_result row = Some "No valid head hash") →
   w' = w ∧ head_tree_fingerprint row = head_tree_fingerprint info) ∧
  (head_test_result row = Some (state_name Tests_passed) →
   has_char "/" (repository info) = true ∧
   String.length (head_hash info) = 40 ∧
   is_Some (head_tree_fingerprint row) ∧
   ∃ w1 repo,
     Repository R (repository info) cache
       (repository info +:+ "/head-" +:+ repository info) true
       (log_call (Call_Repository (repository info) cache
                    (repository info +:+ "/head-" +:+ repository info) true) w)
     = (w1, Ok repo) ∧
     exists_ (fs w') (repo_path R repo) = true).
Proof.
  unfold head_passes_tests.
  destruct (has_char "/" (repository info)) eqn:Hs; simpl.
  2:{ intros [= <- <-]. split_and!; auto. done. }
  destruct (String.length (head_hash info) =? 40)%nat eqn:Hh; simpl.
  2:{ intros [= <- <-]. split_and!; auto. done. }
  apply Nat.eqb_eq in Hh.
  unfold mbind, io_bind, catch, logged.
  destruct (Repository R _ _ _ _ _) as [w1 [repo|e]] eqn:Hrepo; simpl.
  2:{ intros [= <- <-]. split_and!; auto.
      - right. right. by exists Git_checkout_failed.
      - by intros [|].
      - done. }
  destruct (checkout_and_test R _ _ _ _ _) as [w2 [[[state lg] fp]|e]]; simpl; [|done].
  destruct (decide (state = Tests_passed)) as [->|Hne].
  - destruct (clone_repo R repo _) as [w3 [[]|e]]; [|done].
    unfold path_exists, assert_.
    destruct (exists_ (fs w3) (repo_path R repo)) eqn:Hex; [|done].
    simpl. intros [= <- <-]. split_and!; auto.
    + right. right. by exists Tests_passed.
    + by intros [|].
    + intros _. split_and!; auto. by exists w1, repo.
  - destruct (rmtree_ignore_errors (repo_path R repo) w2) as [w3 [[]|e]] eqn:Hrm.
    2:{ unfold rmtree_ignore_errors in Hrm. by destruct (is_dir _ _). }
    simpl. intros [= <- <-]. split_and!; auto.
    + right. right. by exists state.
    + intros [H|H]; simpl in H; by destruct state.
    + simpl. intros [= H]. by apply (state_name_inj state Tests_passed) in H.
Qed.

(** ** [num_processes] *)

Lemma num_processes_checked :
  forallb (λ n,
    match num_processes (Some n) default_percentage with
    | Some k =>
        (2 <=? k)%Z && (k <? n)%Z &&
        ((k =? (7 * n) `div` 10)%Z || ((k =? (7 * n) `div` 10 - 1)%Z && (n `mod` 10 =? 0)%Z))
    | None => false
    end) (seqZ 4 4093) = true.
Proof. by vm_compute. Qed.

(** X15.  [num_processes] gives one process when the count of CPUs is
    unknown or zero, whatever the share, and all the CPUs when there
    are one to three.  With the default share of 0.7 and from 4 to 4096
    CPUs it gives at least 2 processes and fewer than there are CPUs:
    the integer part of [7 n / 10], or one less than that for some
    multiples of ten, by the rounding of the product in binary64. *)
Theorem num_processes_share (os_cpu_count : option Z) (percentage : PrimFloat.float)
    (n : Z) :
  (os_cpu_count = None ∨ os_cpu_count = Some 0%Z →
   num_processes os_cpu_count percentage = Some 1%Z) ∧
  ((1 ≤ n ≤ 3)%Z → num_processes (Some n) percentage = Some n) ∧
  ((4 ≤ n ≤ 4096)%Z →
   ∃ k, num_processes (Some n) default_percentage = Some k ∧
        (2 ≤ k < n)%Z ∧
        (k = ((7 * n) `div` 10)%Z ∨ (k = ((7 * n) `div` 10 - 1)%Z ∧ (n `mod` 10 = 0)%Z))).
Proof.
  split_and!.
  - by intros [->| ->].
  - intros Hn. unfold num_processes.
    destruct (Z.eqb_spec n 0); [lia|].
    destruct (Z.ltb_spec 3 n); [lia|done].
  - intros Hn. pose proof num_processes_checked as Hall.
    rewrite forallb_forall in Hall. specialize (Hall n).
    destruct (num_processes (Some n) default_percentage) as [k|].
    + exists k. split; [done|].
      assert (Hin : In n (seqZ 4 4093)).
      { apply list_elem_of_In, elem_of_seqZ. lia. }
      apply Hall in Hin.
      apply andb_prop in Hin as [[H1 H2]%andb_prop H3].
      apply Z.leb_le in H1. apply Z.ltb_lt in H2. split; [lia|].
      apply orb_prop in H3 as [H3|[H3 H4]%andb_prop].
      * left. by apply Z.eqb_eq in H3.
      * right. apply Z.eqb_eq in H3, H4. done.
    + assert (Hin : In n (seqZ 4 4093)).
      { apply list_elem_of_In, elem_of_seqZ. lia. }
      by apply Hall in Hin.
Qed.

(** With 90 CPUs the share of 0.7 gives 62 processes, not 63. *)
Example num_processes_90 : num_processes (Some 90%Z) default_percentage = Some 62%Z.
Proof. by vm_compute. Qed.

(** ** The further properties at work *)

Lemma tree_of_Ok (r : result FS) : succeeded r = true → r = Ok (tree_of r).
Proof. by destruct r. Qed.

Lemma merge_again_BA_Ok :
  merge_caches rglob_listing [["B"]; ["A"]] ["out"] (merged [["A"]; ["B"]] two_sources)
  = Ok (merged [["B"]; ["A"]] (merged [["A"]; ["B"]] two_sources)).
Proof. apply merged_Ok. vm_compute. reflexivity. Qed.

Lemma merge_leaves_sources_witness :
  merged [["A"]; ["B"]] two_sources !! ["A"; "x.json"] = two_sources !! ["A"; "x.json"].
Proof.
  apply (merge_leaves_sources rglob_listing [["A"]; ["B"]] ["out"] two_sources _ ["A"]).
  - apply apart_AB_out.
  - apply merge_AB_Ok.
  - by left.
  - by exists ["x.json"].
Defined.

Lemma merge_never_removes_witness :
  (exists_ two_sources ["B"; "d"] → exists_ (merged [["A"]; ["B"]] two_sources) ["B"; "d"]) ∧
  (is_file two_sources ["B"; "d"] → is_file (merged [["A"]; ["B"]] two_sources) ["B"; "d"]) ∧
  (is_dir two_sources ["B"; "d"] → is_dir (merged [["A"]; ["B"]] two_sources) ["B"; "d"]).
Proof.
  apply (merge_never_removes rglob_listing [["A"]; ["B"]] ["out"] two_sources).
  apply merge_AB_Ok.
Defined.

Lemma merge_writes_inside_output_witness :
  merged [["A"]; ["B"]] two_sources !! ["out"; "x.json"] = two_sources !! ["out"; "x.json"] ∨
  ["out"] `prefix_of` ["out"; "x.json"] ∨
  (["out"; "x.json"] `prefix_of` ["out"] ∧ two_sources !! ["out"; "x.json"] = None ∧
   merged [["A"]; ["B"]] two_sources !! ["out"; "x.json"] = Some Dir).
Proof.
  apply (merge_writes_inside_output rglob_listing [["A"]; ["B"]] ["out"] two_sources).
  apply merge_AB_Ok.
Defined.

Lemma merge_keeps_opaque_output_witness :
  merged [["B"]; ["A"]] (merged [["A"]; ["B"]] two_sources) !! ["out"; "d"; "blob.bin"]
  = merged [["A"]; ["B"]] two_sources !! ["out"; "d"; "blob.bin"].
Proof.
  apply (merge_keeps_opaque_output rglob_listing [["B"]; ["A"]] ["out"]).
  - apply merge_again_BA_Ok.
  - exists (File (Bytes "bytes of A")). by vm_compute.
  - vm_compute. discriminate.
  - discriminate.
Defined.

Lemma merge_needs_sources_witness : exists_ two_sources ["A"].
Proof.
  apply (merge_needs_sources rglob_listing [["A"]; ["B"]] ["out"] two_sources
           (merged [["A"]; ["B"]] two_sources)).
  - apply rglob_listing_lists_below.
  - apply apart_AB_out.
  - apply merge_AB_Ok.
  - by left.
Defined.

Lemma merge_gives_every_entry_a_place_witness :
  exists_ (merged [["A"]; ["B"]] two_sources) (["out"] ++ tail ["B"; "x.json"]) ∧
  (suffix ["B"; "x.json"] = ".json" →
   is_file (merged [["A"]; ["B"]] two_sources) (["out"] ++ tail ["B"; "x.json"])).
Proof.
  apply (merge_gives_every_entry_a_place rglob_listing [["A"]; ["B"]] ["out"]
           two_sources _ ["B"]).
  - apply rglob_listing_lists_below.
  - apply apart_AB_out.
  - apply merge_AB_Ok.
  - right. by left.
  - apply (bool_decide_unpack _). vm_compute. exact I.
  - vm_compute. exact I.
  - vm_compute. discriminate.
Defined.

Lemma merge_stops_at_malformed_entry_witness :
  ∃ e, merge_caches rglob_listing [["A"]; ["B"]] ["out"] damaged_sources = Raise e.
Proof.
  apply (merge_stops_at_malformed_entry rglob_listing [["A"]; ["B"]] ["out"]
           damaged_sources ["B"] ["B"; "x.json"] "{").
  - apply rglob_listing_lists_below.
  - apply apart_AB_out.
  - right. by left.
  - apply (bool_decide_unpack _). vm_compute. exact I.
  - reflexivity.
  - by vm_compute.
Defined.

Lemma copy_file_copies_once_witness :
  let σ' := tree_of (copy_file two_sources ["A"; "d"; "blob.bin"] ["out"; "d"; "blob.bin"]) in
  exists_ σ' ["out"; "d"; "blob.bin"] ∧
  (exists_ two_sources ["out"; "d"; "blob.bin"] → σ' = two_sources) ∧
  (¬ exists_ two_sources ["out"; "d"; "blob.bin"] →
     ∃ c, node_at two_sources ["A"; "d"; "blob.bin"] = Some (File c) ∧
          σ' !! ["out"; "d"; "blob.bin"] = Some (File c)) ∧
  node_at σ' ["A"; "d"; "blob.bin"] = node_at two_sources ["A"; "d"; "blob.bin"] ∧
  copy_file σ' ["A"; "d"; "blob.bin"] ["out"; "d"; "blob.bin"] = Ok σ'.
Proof.
  apply (copy_file_copies_once two_sources).
  apply tree_of_Ok. vm_compute. reflexivity.
Defined.

Lemma copy_file_needs_a_file_witness :
  ∃ e, copy_file two_sources ["A"; "d"] ["out"; "d"] = Raise e.
Proof.
  apply (copy_file_needs_a_file two_sources ["A"; "d"] ["out"; "d"]); by vm_compute.
Defined.

Lemma merge_json_data_last_wins_witness :
  ∃ items,
    tree_of (merge_json_data two_sources [["B"; "x.json"]; ["A"; "x.json"]] ["out"; "x.json"])
      !! ["out"; "x.json"] = Some (File (Mapping items)) ∧
    NoDup items.*1 ∧
    (∀ l1 p l2 doc k v,
       [["B"; "x.json"]; ["A"; "x.json"]] = l1 ++ p :: l2 →
       node_at two_sources p = Some (File (Mapping doc)) →
       text_get doc k = Some v →
       Forall (lacks two_sources k) l2 →
       dict_get items k = Some (sort_keys (load_value v))) ∧
    (∀ k, Forall (lacks two_sources k) [["B"; "x.json"]; ["A"; "x.json"]] →
       dict_get items k = None).
Proof.
  apply (merge_json_data_last_wins two_sources).
  apply tree_of_Ok. vm_compute. reflexivity.
Defined.

Lemma merge_json_data_twice_witness :
  let σ' := tree_of (merge_json_data two_sources [["B"; "x.json"]; ["A"; "x.json"]]
                       ["out"; "x.json"]) in
  merge_json_data σ' [["B"; "x.json"]; ["A"; "x.json"]] ["out"; "x.json"] = Ok σ'.
Proof.
  apply (merge_json_data_twice two_sources).
  - apply Forall_forall. apply (bool_decide_unpack _). vm_compute. exact I.
  - apply tree_of_Ok. vm_compute. reflexivity.
Defined.

Lemma merge_json_data_rejects_witness :
  (∀ b, node_at damaged_sources ["B"; "x.json"] = Some (File (Bytes b)) →
     merge_json_data damaged_sources ([["A"; "x.json"]] ++ ["B"; "x.json"] :: [])
       ["out"; "x.json"] = Raise JSONDecodeError) ∧
  (node_at damaged_sources ["B"; "x.json"] = Some Dir →
     merge_json_data damaged_sources ([["A"; "x.json"]] ++ ["B"; "x.json"] :: [])
       ["out"; "x.json"] = Raise IsADirectoryError).
Proof.
  apply (merge_json_data_rejects damaged_sources [["A"; "x.json"]] []).
  constructor; [|constructor]. right. eexists. by vm_compute.
Defined.

Lemma head_row_outcome_witness :
  let row := row_of (head_run (stub Tests_passed) ∅).2 in
  let w' := (head_run (stub Tests_passed) ∅).1 in
  repository row = "a/b" ∧
  head_hash row = hash40 ∧
  (head_test_result row = Some "Wrong format" ∨
   head_test_result row = Some "No valid head hash" ∨
   ∃ state, head_test_result row = Some (state_name state)) ∧
  ((head_test_result row = Some "Wrong format" ∨
    head_test_result row = Some "No valid head hash") →
   w' = world ∅ ∧ head_tree_fingerprint row = None) ∧
  (head_test_result row = Some (state_name Tests_passed) →
   has_char "/" "a/b" = true ∧
   String.length hash40 = 40 ∧
   is_Some (head_tree_fingerprint row) ∧
   ∃ w1 repo,
     Repository (stub Tests_passed) "a/b" ["cache"] ("a/b" +:+ "/head-" +:+ "a/b") true
       (log_call (Call_Repository "a/b" ["cache"] ("a/b" +:+ "/head-" +:+ "a/b") true)
          (world ∅))
     = (w1, Ok repo) ∧
     exists_ (fs w') (repo_path (stub Tests_passed) repo) = true).
Proof.
  apply (head_row_outcome (stub Tests_passed) 10 (task "a/b" hash40) ["cache"] (world ∅)).
  apply (pair_Ok_eta (head_run (stub Tests_passed) ∅)). by vm_compute.
Defined.

Lemma num_processes_share_witness :
  ∃ k, num_processes (Some 90%Z) default_percentage = Some k ∧
       (2 ≤ k < 90)%Z ∧
       (k = ((7 * 90) `div` 10)%Z ∨ (k = ((7 * 90) `div` 10 - 1)%Z ∧ (90 `mod` 10 = 0)%Z)).
Proof.
  destruct (num_processes_share None default_percentage 90) as (_ & _ & H).
  apply H. lia.
Defined.

